(** * rgb-matrix-pi: directional input engines and relay sender

    A shallow embedding of [hid_listener.py], [stdin_listener.py] and
    [stdin_proxy.py].

    Conventions used throughout:
    - a Python [dict] with string keys is a [gmap string _], a Python
      [set] of key names is a [gset string];
    - a HID report is the [list Z] obtained by [list(data)];
    - a reading of [time.time()] is an integer number of microseconds;
      only differences and comparisons of readings are ever used;
    - a background loop is a function over the list of things the
      operating system hands to it, one element per loop iteration; for
      the terminal engine [Stdin.loop_inputs] derives that list from the
      bytes arriving at the terminal, through [select] and [read(1)]. *)

From Stdlib Require Import ZArith String Ascii List Lia Bool.
From stdpp Require Import base option list gmap sets strings sorting.

#[local] Set Warnings "-clear-no-such-hyp".

Local Open Scope string_scope.
Local Open Scope list_scope.
Local Open Scope Z_scope.

(** ** Shared primitives: key events and the key-state table *)

(** The tuple [(k, is_down, ts)] put on [event_queue]. *)
Record KeyEvent := mkEvent { ev_key : string; ev_down : bool; ev_ts : Z }.

(** [{'up': False, 'down': False, 'left': False, 'right': False}] *)
Definition initial_key_states : gmap string bool :=
  <["up" := false]> (<["down" := false]> (<["left" := false]> (<["right" := false]> ∅))).

(** [{k: 0.0 for k in self.key_states}] *)
Definition initial_key_press_time : gmap string Z :=
  <["up" := 0]> (<["down" := 0]> (<["left" := 0]> (<["right" := 0]> ∅))).

Definition is_direction (k : string) : Prop :=
  k = "up" ∨ k = "down" ∨ k = "left" ∨ k = "right".

(** [self.key_states.get(key, False)] *)
Definition is_pressed (key_states : gmap string bool) (key : string) : bool :=
  default false (key_states !! key).

(** [pressed_duration]: [0.0] when not pressed, otherwise
    [time.time() - self.key_press_time.get(key, 0.0)]; [now] is the reading
    of [time.time()] taken by the call. *)
Definition pressed_duration (key_states : gmap string bool)
    (key_press_time : gmap string Z) (now : Z) (key : string) : Z :=
  if negb (is_pressed key_states key) then 0
  else now - default 0 (key_press_time !! key).

(** Python truthiness of a [str]. *)
Definition str_truthy (s : string) : bool :=
  match s with EmptyString => false | _ => true end.

(** The down/up flags of the events of direction [d], in queue order. *)
Definition edges (d : string) (q : list KeyEvent) : list bool :=
  ev_down <$> filter (λ e, ev_key e = d) q.

(** Timestamp of the latest down event of direction [d] in the queue. *)
Definition last_down_ts (d : string) (q : list KeyEvent) : option Z :=
  last (ev_ts <$> filter (λ e, ev_key e = d ∧ ev_down e = true) q).

(** [alt_end cur l]: starting from pressed-state [cur], consume the edge
    list [l]; every edge must flip the state.  Returns the final state, or
    [None] when two equal edges are adjacent (or the first edge repeats
    [cur]). *)
Fixpoint alt_end (cur : bool) (l : list bool) : option bool :=
  match l with
  | [] => Some cur
  | x :: l' => if eqb x (negb cur) then alt_end x l' else None
  end.



(** An iteration order for Python sets: [for k in s] visits every element
    of [s] once, in an order the language does not fix. *)
Record set_iter := mkSetIter {
  iter_list :> gset string → list string;
  iter_perm : ∀ s, iter_list s ≡ₚ elements s
}.

Definition elements_iter : set_iter := mkSetIter elements (λ s, reflexivity _).

(** [buf[start:end]] for [0 <= start <= end]: clipped, never an error. *)
Definition py_slice {A} (buf : list A) (start stop : nat) : list A :=
  take (stop - start) (drop start buf).

(** A device handle returned by [hid.device()] after a successful open. *)
Inductive Handle :=
| ByPath (p : string)
| ByIds (vid pid : Z).

(** The saved result of [termios.tcgetattr]; an empty list is falsy. *)
Definition TermSettings := list Z.

(** What an engine does to its worker and to the operating system, logged
    in program order. *)
Inductive Effect :=
| SignalStop                          (* self.running = False *)
| JoinWorker (timeout_us : Z)         (* self.thread.join(timeout=...) *)
| CloseDevice (h : Handle)            (* self.dev.close() *)
| RestoreTerminal (s : TermSettings)  (* termios.tcsetattr(stdin, TCSANOW, s) *)
| RaiseSIGINT                         (* os.kill(os.getpid(), signal.SIGINT) *)
| Sleep (us : Z).                     (* time.sleep *)

(** ASCII part of [str.lower()]. *)
Definition lower_ascii (c : ascii) : ascii :=
  let n := nat_of_ascii c in
  if ((65 <=? n) && (n <=? 90))%nat then ascii_of_nat (n + 32) else c.

Fixpoint lower (s : string) : string :=
  match s with
  | EmptyString => EmptyString
  | String c r => String (lower_ascii c) (lower r)
  end.

Fixpoint starts_with (needle hay : string) : bool :=
  match needle, hay with
  | EmptyString, _ => true
  | String a n', String b h' => if Ascii.eqb a b then starts_with n' h' else false
  | String _ _, EmptyString => false
  end.

(** [needle in hay] on strings. *)
Fixpoint contains (needle hay : string) : bool :=
  starts_with needle hay ||
  match hay with
  | EmptyString => false
  | String _ r => contains needle r
  end.

(** ** HID acquisition engine ([hid_listener.py]) *)
Module HID.

(** [USAGE_ARROW_MAP] *)
Definition USAGE_ARROW_MAP : gmap Z string :=
  <[0x52 := "up"]> (<[0x51 := "down"]> (<[0x4F := "right"]> (<[0x50 := "left"]> ∅))).

(** Body of the inner [for usage in buf[start:end]] loop. *)
Definition decode_usage (keys : gset string) (usage : Z) : gset string :=
  if (usage =? 0)%Z then keys
  else match USAGE_ARROW_MAP !! usage with
       | Some name => if str_truthy name then keys ∪ {[ name ]} else keys
       | None => keys
       end.

(** Body of [for offset in (0, 1)]. *)
Definition decode_offset (buf : list Z) (keys : gset string) (offset : nat) : gset string :=
  let start := (offset + 2)%nat in
  let stop := (start + 6)%nat in
  foldl decode_usage keys (py_slice buf start stop).

(** Lines 223-232: the set [keys] decoded from one report. *)
Definition decode (buf : list Z) : gset string :=
  foldl (decode_offset buf) ∅ [0%nat; 1%nat].

(** The attributes of a [HIDListener] that the engine reads or writes.
    [thread] is [None] before [start()]; otherwise it holds what
    [self.thread.is_alive()] answers. *)
Record HIDListener := mkHID {
  dev : option Handle;
  thread : option bool;
  running : bool;
  event_queue : list KeyEvent;
  key_states : gmap string bool;
  key_press_time : gmap string Z
}.

(** [__init__] *)
Definition init : HIDListener :=
  mkHID None None false [] initial_key_states initial_key_press_time.

Definition set_running (b : bool) (l : HIDListener) : HIDListener :=
  mkHID (dev l) (thread l) b (event_queue l) (key_states l) (key_press_time l).

(** Lines 244-246: body of [for k in down]. *)
Definition press (ts : Z) (l : HIDListener) (k : string) : HIDListener :=
  mkHID (dev l) (thread l) (running l)
        (event_queue l ++ [mkEvent k true ts])
        (<[k := true]> (key_states l))
        (<[k := ts]> (key_press_time l)).

(** Lines 249-250: body of [for k in up]. *)
Definition release (ts : Z) (l : HIDListener) (k : string) : HIDListener :=
  mkHID (dev l) (thread l) (running l)
        (event_queue l ++ [mkEvent k false ts])
        (<[k := false]> (key_states l))
        (key_press_time l).

(** What one pass through the [while self.running] body meets.
    - [ReadData data ts]: [self.dev.read] returned [data] ([None], [b''] and
      [[]] are all the empty list); [ts] is the reading of [time.time()] at
      line 242, taken only when [data] is not empty.
    - [ReadOSError stopping]: the read raised [OSError]; [stopping] tells
      whether [stop()] has cleared [self.running] while the read was in
      flight.
    - [ReadError]: the body raised any other [Exception]. *)
Inductive ReadOutcome :=
| ReadData (data : list Z) (ts : Z)
| ReadOSError (stopping : bool)
| ReadError.

(** One element per loop iteration, or a [stop()] issued by the controlling
    thread between two iterations. *)
Inductive LoopInput :=
| Read (o : ReadOutcome)
| ExternalStop.

(** The locals of [_run] next to [self]; [slept] logs the arguments of
    [time.sleep], in microseconds. *)
Record RunState := mkRun {
  self : HIDListener;
  prev_keys : gset string;
  error_count : Z;
  slept : list Z
}.

Inductive Control := Continue | Break.

Definition max_errors : Z := 10.

(** Lines 200-206 and 256-261: count the error, stop at the ceiling,
    otherwise sleep [backoff] and go round again. *)
Definition count_error (backoff : Z) (s : RunState) : RunState * Control :=
  let n := error_count s + 1 in
  if (n >=? max_errors)%Z
  then (mkRun (set_running false (self s)) (prev_keys s) n (slept s), Break)
  else (mkRun (self s) (prev_keys s) n (slept s ++ [backoff]), Continue).

(** Lines 213-253: a non-empty report. *)
Definition process_report (it : set_iter) (data : list Z) (ts : Z) (s : RunState) : RunState :=
  let keys := decode data in
  let down := keys ∖ prev_keys s in
  let up := prev_keys s ∖ keys in
  let l1 := foldl (press ts) (self s) (it down) in
  let l2 := foldl (release ts) l1 (it up) in
  mkRun l2 keys 0 (slept s).

(** The body of the [while] loop, entered with [self.running] true. *)
Definition body (it : set_iter) (o : ReadOutcome) (s : RunState) : RunState * Control :=
  match o with
  | ReadOSError true =>
      (mkRun (set_running false (self s)) (prev_keys s) (error_count s) (slept s), Break)
  | ReadOSError false => count_error 100000 s
  | ReadError => count_error 500000 s
  | ReadData [] _ =>
      (mkRun (self s) (prev_keys s) (error_count s) (slept s ++ [10000]), Continue)
  | ReadData data ts => (process_report it data ts s, Continue)
  end.

(** [while self.running: ...] over the inputs available so far.  When the
    inputs run out the state reached is returned. *)
Fixpoint loop (it : set_iter) (inputs : list LoopInput) (s : RunState) : RunState :=
  match inputs with
  | [] => s
  | i :: rest =>
      if running (self s) then
        match i with
        | ExternalStop =>
            loop it rest (mkRun (set_running false (self s)) (prev_keys s) (error_count s) (slept s))
        | Read o =>
            match body it o s with
            | (s', Continue) => loop it rest s'
            | (s', Break) => s'
            end
        end
      else s
  end.

(** [_run]: [prev_keys = set()], [error_count = 0], then the loop. *)
Definition _run (it : set_iter) (inputs : list LoopInput) (l : HIDListener) : RunState :=
  loop it inputs (mkRun l ∅ 0 []).

(** The read errors the loop counts: an [OSError] while the engine is
    running, or any other exception in the loop body. *)
Definition is_transient (o : ReadOutcome) : Prop :=
  o = ReadOSError false ∨ o = ReadError.

(** The sleep that follows a counted error, in microseconds. *)
Definition backoff (o : ReadOutcome) : Z :=
  match o with
  | ReadOSError _ => 100000
  | _ => 500000
  end.

(** The state in which [start()] leaves a freshly created listener whose
    device opened as [h]. *)
Definition started (h : Handle) : HIDListener :=
  mkHID (Some h) (Some true) true [] initial_key_states initial_key_press_time.

(** *** [stop()] *)

(** [stop()]; an exception of [close()] is swallowed, so the result does
    not depend on it.  [self.dev] is left as it is. *)
Definition stop (l : HIDListener) : HIDListener * list Effect :=
  let l1 := set_running false l in
  let t1 := [SignalStop] in
  let t2 := match thread l1 with
            | Some true => t1 ++ [JoinWorker 1000000]
            | _ => t1
            end in
  let t3 := match dev l1 with
            | Some h => t2 ++ [CloseDevice h]
            | None => t2
            end in
  (l1, t3).

(** *** Device acquisition: [_open] and [start()] *)

(** One dictionary of [hid.enumerate()]; a missing key or [None] is [None].
    Strings that arrive as [bytes] are taken as already decoded. *)
Record Descriptor := mkDesc {
  path : option string;
  vendor_id : option Z;
  product_id : option Z;
  product_string : option string;
  manufacturer_string : option string;
  usage_page : option Z;
  usage : option Z;
  interface_number : option Z
}.

(** The constructor arguments [vid], [pid], [device_path]. *)
Record Config := mkConfig {
  cfg_vid : option Z;
  cfg_pid : option Z;
  cfg_device_path : option string
}.

(** What happens when a candidate path is opened and probed: [open_path]
    raises; [open_path] works but the probe read raises; or both work. *)
Inductive OpenOutcome := OpenRaises | ProbeRaises | Opens.

(** The HID library as the engine sees it. *)
Record HidEnv := mkEnv {
  hid_available : bool;                 (* [hid is not None] *)
  enumerate : list Descriptor;          (* [hid.enumerate()] *)
  open_path : string → OpenOutcome;     (* [h.open_path(p)], then the probe *)
  open_ids : Z → Z → bool               (* [h.open(vid, pid)] succeeds *)
}.

Inductive OpenError :=
| HidapiNotAvailable       (* RuntimeError('hidapi not available; ...') *)
| OpenByIdsFailed          (* whatever [h.open(vid, pid)] raised *)
| NoSuitableDevice.        (* RuntimeError('No suitable HID device found') *)

(** [_s(x)] *)
Definition _s (x : option string) : string := default "" x.

Definition opt_truthy_str (x : option string) : bool :=
  match x with Some p => str_truthy p | None => false end.

Definition opt_truthy_int (x : option Z) : bool :=
  match x with Some n => negb (n =? 0)%Z | None => false end.

Definition opt_eqb (x : option Z) (n : Z) : bool :=
  match x with Some m => (m =? n)%Z | None => false end.

(** Lines 81-90: the three signals, in program order. *)
Definition is_keyboard (d : Descriptor) : bool :=
  let prod := _s (product_string d) in
  let mfg := _s (manufacturer_string d) in
  let iface := interface_number d in
  let is_keyboard := false in
  let is_keyboard :=
    if opt_eqb (usage_page d) 0x01 && opt_eqb (usage d) 0x06 then true else is_keyboard in
  let is_keyboard :=
    if contains "keyboard" (lower prod) || contains "keyboard" (lower mfg)
    then true else is_keyboard in
  let is_keyboard :=
    if (opt_eqb iface 0 || opt_eqb iface 1)
       && (contains "logitech" (lower mfg) || contains "key" (lower prod))
    then true else is_keyboard in
  is_keyboard.

(** Lines 91-101: the dictionary appended to [candidates]. *)
Definition candidate_of (d : Descriptor) : Descriptor :=
  mkDesc (path d) (vendor_id d) (product_id d)
         (Some (_s (product_string d))) (Some (_s (manufacturer_string d)))
         (usage_page d) (usage d) (interface_number d).

(** Lines 73-101. *)
Fixpoint candidates (ds : list Descriptor) : list Descriptor :=
  match ds with
  | [] => []
  | d :: rest =>
      if is_keyboard d && opt_truthy_str (path d)
      then candidate_of d :: candidates rest
      else candidates rest
  end.

(** Lines 110-132: open the candidates in list order.  Returns the handle
    of the first one that opens and survives the probe, and the paths on
    which [open_path] was called. *)
Fixpoint try_candidates (env : HidEnv) (cs : list Descriptor) (tried : list string)
  : (OpenError + Handle) * list string :=
  match cs with
  | [] => (inl NoSuitableDevice, tried)
  | c :: rest =>
      let p := _s (path c) in
      match open_path env p with
      | Opens => (inr (ByPath p), tried ++ [p])
      | _ => try_candidates env rest (tried ++ [p])
      end
  end.

(** [_open] *)
Definition _open (cfg : Config) (env : HidEnv) : (OpenError + Handle) * list string :=
  if negb (hid_available env) then (inl HidapiNotAvailable, [])
  else
    let by_path :=
      match cfg_device_path cfg with
      | Some p =>
          if str_truthy p then
            match open_path env p with
            | OpenRaises => (None, [p])
            | _ => (Some (ByPath p), [p])
            end
          else (None, [])
      | None => (None, [])
      end in
    match by_path with
    | (Some h, tried) => (inr h, tried)
    | (None, tried) =>
        if opt_truthy_int (cfg_vid cfg) && opt_truthy_int (cfg_pid cfg) then
          let vid := default 0 (cfg_vid cfg) in
          let pid := default 0 (cfg_pid cfg) in
          if open_ids env vid pid then (inr (ByIds vid pid), tried)
          else (inl OpenByIdsFailed, tried)
        else try_candidates env (candidates (enumerate env)) tried
    end.

(** [start()]: the error of [_open] propagates; otherwise the device is
    stored, [running] is set and the worker is started. *)
Definition start (cfg : Config) (env : HidEnv) (l : HIDListener) : OpenError + HIDListener :=
  match fst (_open cfg env) with
  | inl e => inl e
  | inr h =>
      inr (mkHID (Some h) (Some true) true (event_queue l) (key_states l) (key_press_time l))
  end.

(** Discovery is reached when no usable device path and no usable
    vendor/product pair is configured. *)
Definition discovery (cfg : Config) : Prop :=
  opt_truthy_str (cfg_device_path cfg) = false
  ∧ opt_truthy_int (cfg_vid cfg) && opt_truthy_int (cfg_pid cfg) = false.

(** The three signals of lines 83, 86 and 89. *)
Definition signal_usage (d : Descriptor) : bool :=
  opt_eqb (usage_page d) 0x01 && opt_eqb (usage d) 0x06.

Definition signal_name (d : Descriptor) : bool :=
  contains "keyboard" (lower (_s (product_string d)))
  || contains "keyboard" (lower (_s (manufacturer_string d))).

Definition signal_interface (d : Descriptor) : bool :=
  (opt_eqb (interface_number d) 0 || opt_eqb (interface_number d) 1)
  && (contains "logitech" (lower (_s (manufacturer_string d)))
      || contains "key" (lower (_s (product_string d)))).

(** The clock readings of the non-empty reports among the loop inputs, in
    order: the values [ts = time.time()] of line 242. *)
Fixpoint report_times (inputs : list LoopInput) : list Z :=
  match inputs with
  | [] => []
  | Read (ReadData (_ :: _) ts) :: rest => ts :: report_times rest
  | _ :: rest => report_times rest
  end.

(** An input that makes the controlling side end the loop: [stop()] between
    two iterations or while a read is in flight. *)
Definition is_stop_request (i : LoopInput) : Prop :=
  i = ExternalStop ∨ i = Read (ReadOSError true).

End HID.

(** ** Terminal acquisition engine ([stdin_listener.py]) *)
Module Stdin.

Definition ESC : ascii := ascii_of_nat 27.
Definition CTRL_C : ascii := ascii_of_nat 3.

(** [ESCAPE_MAP] *)
Definition ESCAPE_MAP : gmap string string :=
  <[String ESC "[A" := "up"]> (<[String ESC "[B" := "down"]>
  (<[String ESC "[C" := "right"]> (<[String ESC "[D" := "left"]> ∅))).

Definition settings_truthy (o : option TermSettings) : bool :=
  match o with Some (_ :: _) => true | _ => false end.

Record StdinListener := mkStdin {
  thread : option bool;
  running : bool;
  event_queue : list KeyEvent;
  key_states : gmap string bool;
  key_press_time : gmap string Z;
  last_direction : option string;
  old_settings : option TermSettings
}.

(** [__init__] *)
Definition init : StdinListener :=
  mkStdin None false [] initial_key_states initial_key_press_time None None.

Definition set_running (b : bool) (l : StdinListener) : StdinListener :=
  mkStdin (thread l) b (event_queue l) (key_states l) (key_press_time l)
          (last_direction l) (old_settings l).

(** [start()]: [saved] is what [tcgetattr] returned, [None] when it raised. *)
Definition start (saved : option TermSettings) (l : StdinListener) : StdinListener :=
  mkStdin (Some true) true (event_queue l) (key_states l) (key_press_time l)
          (last_direction l) (match saved with Some s => Some s | None => old_settings l end).

(** [stop()]: an exception of [tcsetattr] is only logged. *)
Definition stop (l : StdinListener) : StdinListener * list Effect :=
  let l1 := set_running false l in
  let t1 := [SignalStop] in
  let t2 := if settings_truthy (old_settings l1)
            then t1 ++ [RestoreTerminal (default [] (old_settings l1))]
            else t1 in
  (l1, t2).

(** Lines 129-132: a resolved arrow sequence; [t1] and [t2] are the two
    successive readings of [time.time()]. *)
Definition press (key : string) (t1 t2 : Z) (l : StdinListener) : StdinListener :=
  mkStdin (thread l) (running l)
          (event_queue l ++ [mkEvent key true t2])
          (<[key := true]> (key_states l))
          (<[key := t1]> (key_press_time l))
          (Some key)
          (old_settings l).

(** One element per loop iteration, or a [stop()] from the controlling
    thread between two iterations.
    - [NotReady now]: [select] timed out; [now] is the reading of
      [time.time()] at line 89, taken only while a sequence is pending.
    - [ReadChar ch t1 t2]: [select] reported readiness and [read(1)]
      returned the character [ch]; [t1], [t2] are the readings of
      [time.time()] the iteration takes, in order (line 116, or lines 130
      and 132).
    - [ReadEmpty]: [read(1)] returned [''].
    - [Raised]: [select] or [read] raised an [Exception]. *)
Inductive LoopInput :=
| NotReady (now : Z)
| ReadChar (ch : ascii) (t1 t2 : Z)
| ReadEmpty
| Raised
| ExternalStop.

(** The locals of [_run] next to [self], and the effects so far. *)
Record RunState := mkRun {
  self : StdinListener;
  buffer : list ascii;
  escape_sequence_start : option Z;
  effects : list Effect
}.

Inductive Control := Continue | Break.

(** 100 ms, in microseconds. *)
Definition escape_timeout : Z := 100000.

Definition is_final_byte (c : ascii) : bool :=
  Ascii.eqb c "A" || Ascii.eqb c "B" || Ascii.eqb c "C" || Ascii.eqb c "D".

(** Line 125. *)
Definition complete_arrow (buffer : list ascii) : bool :=
  (length buffer =? 3)%nat
  && match buffer !! 1%nat with Some c => Ascii.eqb c "[" | None => false end
  && match buffer !! 2%nat with Some c => is_final_byte c | None => false end.

(** Lines 120-142: a character other than Ctrl+C and ESC. *)
Definition on_char (ch : ascii) (t1 t2 : Z) (s : RunState) : RunState :=
  match escape_sequence_start s with
  | None => s
  | Some _ =>
      let buffer' := buffer s ++ [ch] in
      let seq := string_of_list_ascii buffer' in
      if complete_arrow buffer' then
        let self' :=
          match ESCAPE_MAP !! seq with
          | Some key => if str_truthy key then press key t1 t2 (self s) else self s
          | None => self s
          end in
        mkRun self' [] None (effects s)
      else if (5 <? length buffer')%nat then
        mkRun (self s) [] None (effects s)
      else
        mkRun (self s) buffer' (escape_sequence_start s) (effects s)
  end.

(** The body of the [while] loop, entered with [self.running] true. *)
Definition body (i : LoopInput) (s : RunState) : RunState * Control :=
  match i with
  | NotReady now =>
      match escape_sequence_start s with
      | Some t0 =>
          if (escape_timeout <? now - t0)%Z
          then (mkRun (self s) [] None (effects s), Continue)
          else (s, Continue)
      | None => (s, Continue)
      end
  | ReadEmpty => (s, Continue)
  | ReadChar ch t1 t2 =>
      if Ascii.eqb ch CTRL_C then
        let restore :=
          if settings_truthy (old_settings (self s))
          then [RestoreTerminal (default [] (old_settings (self s)))] else [] in
        (mkRun (set_running false (self s)) (buffer s) (escape_sequence_start s)
               (effects s ++ [SignalStop] ++ restore ++ [RaiseSIGINT]), Break)
      else if Ascii.eqb ch ESC then
        (mkRun (self s) [ch] (Some t1) (effects s), Continue)
      else (on_char ch t1 t2 s, Continue)
  | Raised =>
      (mkRun (self s) [] None (effects s ++ [Sleep 100000]), Continue)
  | ExternalStop =>
      (mkRun (set_running false (self s)) (buffer s) (escape_sequence_start s) (effects s),
       Continue)
  end.

(** [while self.running: ...] over the inputs available so far. *)
Fixpoint loop (inputs : list LoopInput) (s : RunState) : RunState :=
  match inputs with
  | [] => s
  | i :: rest =>
      if running (self s) then
        match body i s with
        | (s', Continue) => loop rest s'
        | (s', Break) => s'
        end
      else s
  end.

(** [_run] up to the end of the loop, with raw mode switched on:
    [buffer = []], [escape_sequence_start = None]. *)
Definition _run (inputs : list LoopInput) (l : StdinListener) : RunState :=
  loop inputs (mkRun l [] None []).

(** Lines 150-156, run once the loop has ended. *)
Definition teardown (s : RunState) : RunState :=
  if settings_truthy (old_settings (self s))
  then mkRun (self s) (buffer s) (escape_sequence_start s)
             (effects s ++ [RestoreTerminal (default [] (old_settings (self s)))])
  else s.

(** A listener that has just been started. *)
Definition started (saved : option TermSettings) : StdinListener := start saved init.

(** [get_last_direction()]: read the slot and empty it. *)
Definition get_last_direction (l : StdinListener) : option string * StdinListener :=
  (last_direction l,
   mkStdin (thread l) (running l) (event_queue l) (key_states l) (key_press_time l)
           None (old_settings l)).

(** *** The terminal as the loop reads it *)

(** The loop asks two different layers.  [select.select([sys.stdin], ...)]
    (line 85) asks the operating system whether the file descriptor of the
    terminal has unread bytes.  [sys.stdin.read(1)] (line 97) reads through
    the buffer of the text layer: it hands out a character it already
    holds, and only when it holds none does it fetch what the descriptor
    has, up to one chunk, and keep the rest.  [fd_pending] are the bytes
    the descriptor holds, [text_buffer] the characters the text layer
    holds. *)
Record Tty := mkTty { fd_pending : list ascii; text_buffer : list ascii }.

(** The chunk size of the text layer. *)
Definition CHUNK_SIZE : nat := Z.to_nat 8192.

(** A terminal with nothing to read. *)
Definition idle_tty : Tty := mkTty [] [].

(** [ready, _, _ = select.select([sys.stdin], [], [], 0.01)] *)
Definition select_ready (t : Tty) : bool :=
  match fd_pending t with [] => false | _ :: _ => true end.

(** [sys.stdin.read(1)], called when [select] reported readiness. *)
Definition read1 (t : Tty) : option ascii * Tty :=
  match text_buffer t with
  | c :: held => (Some c, mkTty (fd_pending t) held)
  | [] =>
      match take CHUNK_SIZE (fd_pending t) with
      | c :: held => (Some c, mkTty (drop CHUNK_SIZE (fd_pending t)) held)
      | [] => (None, t)
      end
  end.

(** What happens at the terminal, in order: bytes arrive at the descriptor
    in one piece (a terminal delivers the three bytes of an arrow key this
    way), or the loop makes one pass; [t1] and [t2] are the readings of
    [time.time()] that pass takes, in order. *)
Inductive TtyEvent :=
| Arrive (bytes : list ascii)
| Iterate (t1 t2 : Z).

(** Lines 85-99: what each pass of the loop gets from [select] and
    [read(1)], and the terminal left behind. *)
Fixpoint loop_inputs (events : list TtyEvent) (t : Tty) : list LoopInput * Tty :=
  match events with
  | [] => ([], t)
  | Arrive bytes :: rest =>
      loop_inputs rest (mkTty (fd_pending t ++ bytes) (text_buffer t))
  | Iterate t1 t2 :: rest =>
      if select_ready t then
        match read1 t with
        | (Some ch, t') =>
            (ReadChar ch t1 t2 :: fst (loop_inputs rest t'), snd (loop_inputs rest t'))
        | (None, t') =>
            (ReadEmpty :: fst (loop_inputs rest t'), snd (loop_inputs rest t'))
        end
      else (NotReady t1 :: fst (loop_inputs rest t), snd (loop_inputs rest t))
  end.

(** [_run] on a terminal that starts with nothing to read. *)
Definition run_on_tty (events : list TtyEvent) (l : StdinListener) : RunState * Tty :=
  (_run (fst (loop_inputs events idle_tty)) l, snd (loop_inputs events idle_tty)).

(** *** The consumer side *)

Definition with_queue (q : list KeyEvent) (l : StdinListener) : StdinListener :=
  mkStdin (thread l) (running l) q (key_states l) (key_press_time l)
          (last_direction l) (old_settings l).

(** [get_event(timeout)] at the moment it returns: the oldest event of the
    queue, which it removes, or [None] when the queue is still empty as the
    timeout ends.  (Called without a timeout on an empty queue it does not
    return before the worker has put an event.) *)
Definition get_event (l : StdinListener) : option KeyEvent * StdinListener :=
  match event_queue l with
  | [] => (None, l)
  | e :: q => (Some e, with_queue q l)
  end.

(** What happens to a started listener, in the order in which it happens:
    the worker makes one pass of its loop, or a call of [get_event] by the
    consumer returns. *)
Inductive SessionStep :=
| WorkerPass (i : LoopInput)
| ConsumerGetEvent.

(** The state after the steps, and what the calls of [get_event] returned,
    oldest call first. *)
Fixpoint session (steps : list SessionStep) (s : RunState)
  : RunState * list (option KeyEvent) :=
  match steps with
  | [] => (s, [])
  | WorkerPass i :: rest => session rest (loop [i] s)
  | ConsumerGetEvent :: rest =>
      let r := get_event (self s) in
      let s' := mkRun (snd r) (buffer s) (escape_sequence_start s) (effects s) in
      (fst (session rest s'), fst r :: snd (session rest s'))
  end.

(** The passes of the worker among the steps. *)
Fixpoint worker_passes (steps : list SessionStep) : list LoopInput :=
  match steps with
  | [] => []
  | WorkerPass i :: rest => i :: worker_passes rest
  | ConsumerGetEvent :: rest => worker_passes rest
  end.

(** The state [s] with the events [d], which the consumer has taken, back
    at the head of the queue. *)
Definition with_delivered (d : list KeyEvent) (s : RunState) : RunState :=
  mkRun (with_queue (d ++ event_queue (self s)) (self s))
        (buffer s) (escape_sequence_start s) (effects s).

End Stdin.

(** ** Event relay transport ([stdin_proxy.py]) *)
Module Proxy.

(** The record serialised by [json.dumps] and terminated by a newline. *)
Record RelayMessage := mkMsg { msg_key : string; msg_is_down : bool; msg_ts : Z }.

(** Socket operations as they reach the operating system, in order; the
    flag tells whether the operation succeeded. *)
Inductive SockOp :=
| OpConnect (conn : nat) (ok : bool)
| OpSendAll (conn : nat) (m : RelayMessage) (ok : bool)
| OpClose (conn : nat) (ok : bool).

(** The proxy object and its surroundings: [sock] is [self.sock];
    [script] holds the outcomes of the socket operations still to come
    (an exhausted script lets every operation fail); [next_conn] numbers
    the sockets created; [ops] is the history. *)
Record World := mkWorld {
  sock : option nat;
  script : list bool;
  next_conn : nat;
  ops : list SockOp
}.

(** [__init__] *)
Definition init (script : list bool) : World := mkWorld None script 0 [].

Inductive Exn := SocketError.

(** Computations that read and write the world and may raise. *)
Definition M (A : Type) : Type := World → (Exn + A) * World.

Definition ret {A} (a : A) : M A := λ w, (inr a, w).

Definition bind {A B} (k : A → M B) (m : M A) : M B :=
  λ w, match m w with
       | (inr a, w') => k a w'
       | (inl e, w') => (inl e, w')
       end.

Definition raise {A} (e : Exn) : M A := λ w, (inl e, w).

(** [try: m except Exception: h] *)
Definition try_except {A} (m : M A) (h : Exn → M A) : M A :=
  λ w, match m w with
       | (inr a, w') => (inr a, w')
       | (inl e, w') => h e w'
       end.

#[global] Instance M_ret : MRet M := @ret.
#[global] Instance M_bind : MBind M := @bind.

Definition next_outcome : M bool :=
  λ w, match script w with
       | [] => (inr false, w)
       | b :: r => (inr b, mkWorld (sock w) r (next_conn w) (ops w))
       end.

Definition record_op (o : SockOp) : M unit :=
  λ w, (inr tt, mkWorld (sock w) (script w) (next_conn w) (ops w ++ [o])).

Definition get_sock : M (option nat) := λ w, (inr (sock w), w).

Definition set_sock (s : option nat) : M unit :=
  λ w, (inr tt, mkWorld s (script w) (next_conn w) (ops w)).

(** [socket.socket(...)]: a fresh socket. *)
Definition new_socket : M nat :=
  λ w, (inr (next_conn w), mkWorld (sock w) (script w) (S (next_conn w)) (ops w)).

(** [s = socket.socket(...)]; [s.connect(self.socket_path)] *)
Definition socket_connect : M nat :=
  c ← new_socket;
  ok ← next_outcome;
  record_op (OpConnect c ok);;
  if (ok : bool) then ret c else raise SocketError.

(** [s.sendall(msg.encode('utf-8'))] *)
Definition sendall (c : nat) (m : RelayMessage) : M unit :=
  ok ← next_outcome;
  record_op (OpSendAll c m ok);;
  if (ok : bool) then ret tt else raise SocketError.

(** [s.close()] *)
Definition close (c : nat) : M unit :=
  ok ← next_outcome;
  record_op (OpClose c ok);;
  if (ok : bool) then ret tt else raise SocketError.

(** [connect()] *)
Definition connect : M bool :=
  try_except
    (s ← socket_connect;
     set_sock (Some s);;
     ret true)
    (λ _, set_sock None;; ret false).

(** [send(key, is_down)]; [ts] is the reading of [time.time()] at line 55. *)
Definition send (key : string) (is_down : bool) (ts : Z) : M unit :=
  s ← get_sock;
  connected ←
    match s with
    | Some _ => ret true
    | None => connect
    end;
  if negb connected then ret tt
  else
    let msg := mkMsg key is_down ts in
    try_except
      (s ← get_sock;
       match s with
       | Some c => sendall c msg
       | None => raise SocketError
       end)
      (λ _,
         s ← get_sock;
         try_except
           (match s with Some c => close c | None => raise SocketError end)
           (λ _, ret tt);;
         set_sock None).

(** [ESC_SEQ_MAP.items()], in insertion order. *)
Definition ESC_SEQ_MAP : list (list ascii * string) :=
  [ ([Stdin.ESC; "["; "A"]%char, "up");
    ([Stdin.ESC; "["; "B"]%char, "down");
    ([Stdin.ESC; "["; "C"]%char, "right");
    ([Stdin.ESC; "["; "D"]%char, "left") ].

Fixpoint list_ascii_eqb (a b : list ascii) : bool :=
  match a, b with
  | [], [] => true
  | x :: a', y :: b' => Ascii.eqb x y && list_ascii_eqb a' b'
  | _, _ => false
  end.

(** [buf.endswith(seq)] *)
Definition endswith (buf seq : list ascii) : bool :=
  (length seq <=? length buf)%nat
  && list_ascii_eqb (drop (length buf - length seq) buf) seq.

(** Lines 80-86: [for seq, name in ESC_SEQ_MAP.items(): ...], returning the
    buffer left behind.  [t_down] and [t_up] are the clock readings of the
    two [send] calls. *)
Fixpoint match_sequences (items : list (list ascii * string)) (buf : list ascii)
    (t_down t_up : Z) : M (list ascii) :=
  match items with
  | [] => ret buf
  | (seq, name) :: rest =>
      if endswith buf seq then
        send name true t_down;;
        send name false t_up;;
        ret []
      else match_sequences rest buf t_down t_up
  end.

Definition QUIT : ascii := "q"%char.

Inductive Control := Continue | Return.

(** Lines 78-90: one byte [b] read from stdin. *)
Definition on_byte (buf : list ascii) (b : ascii) (t_down t_up : Z)
  : M (list ascii * Control) :=
  let buf := buf ++ [b] in
  buf ← match_sequences ESC_SEQ_MAP buf t_down t_up;
  if Ascii.eqb b QUIT then ret (buf, Return) else ret (buf, Continue).

(** Lines 74-90: the [while True] loop over the bytes stdin delivers; the
    end of the list is end of input ([read(1)] returns [b'']). *)
Fixpoint read_loop (inputs : list (ascii * Z * Z)) (buf : list ascii) : M (list ascii) :=
  match inputs with
  | [] => ret buf
  | (b, t_down, t_up) :: rest =>
      r ← on_byte buf b t_down t_up;
      match r with
      | (buf', Return) => ret buf'
      | (buf', Continue) => read_loop rest buf'
      end
  end.

(** The outcome the [n]-th socket operation from now on will have. *)
Definition outcome (n : nat) (w : World) : bool := default false (script w !! n).

Definition is_sendall (o : SockOp) : bool :=
  match o with OpSendAll _ _ _ => true | _ => false end.

(** The bytes a terminal delivers for a list of arrow keys, given as entries
    of [ESC_SEQ_MAP] with the two clock readings of their [send] calls. *)
Definition typed_arrows (keys : list ((list ascii * string) * (Z * Z)))
  : list (ascii * Z * Z) :=
  keys ≫= λ '((seq, _), (t_down, t_up)), (λ b, (b, t_down, t_up)) <$> seq.

(** The socket operations that deliver these keys on connection [c]. *)
Definition arrow_deliveries (c : nat) (keys : list ((list ascii * string) * (Z * Z)))
  : list SockOp :=
  keys ≫= λ '((_, name), (t_down, t_up)),
    [OpSendAll c (mkMsg name true t_down) true;
     OpSendAll c (mkMsg name false t_up) true].

End Proxy.

(** ** Invariants of the two run loops *)

(** The invariant of the HID loop, for one key name [d]: the edges of [d]
    alternate and end in the state recorded in [prev_keys]; the table
    agrees with [prev_keys] and with the latest down event; names outside
    the four directions never enter the tables; the error counter stays
    below the ceiling while the engine runs. *)
Definition hid_inv (d : string) (s : HID.RunState) : Prop :=
  alt_end false (edges d (HID.event_queue (HID.self s)))
    = Some (bool_decide (d ∈ HID.prev_keys s))
  ∧ (d ∈ HID.prev_keys s → is_direction d)
  ∧ (is_direction d →
       HID.key_states (HID.self s) !! d = Some (bool_decide (d ∈ HID.prev_keys s))
       ∧ HID.key_press_time (HID.self s) !! d =
           Some (default 0 (last_down_ts d (HID.event_queue (HID.self s)))))
  ∧ (¬ is_direction d →
       HID.key_states (HID.self s) !! d = None
       ∧ HID.key_press_time (HID.self s) !! d = None)
  ∧ 0 ≤ HID.error_count s ≤ HID.max_errors
  ∧ (HID.running (HID.self s) = true → HID.error_count s < HID.max_errors).

(** The invariant of the terminal loop, for one key name [d]: only
    down-edges are enqueued; a direction is pressed exactly when it has an
    event; names outside the four directions never enter the tables or the
    queue. *)
Definition stdin_inv (d : string) (l : Stdin.StdinListener) : Prop :=
  Forall (λ e, ev_down e = true) (Stdin.event_queue l)
  ∧ (is_direction d →
       Stdin.key_states l !! d
         = Some (bool_decide (edges d (Stdin.event_queue l) ≠ [])))
  ∧ (¬ is_direction d →
       Stdin.key_states l !! d = None ∧ Stdin.key_press_time l !! d = None
       ∧ edges d (Stdin.event_queue l) = []).

(** The invariant of the pending escape sequence in the terminal loop:
    either nothing is pending and the buffer is empty, or a sequence is
    pending and the buffer is ESC followed by at most four characters. *)
Definition buffer_inv (s : Stdin.RunState) : Prop :=
  (Stdin.escape_sequence_start s = None ∧ Stdin.buffer s = [])
  ∨ (∃ t0 rest, Stdin.escape_sequence_start s = Some t0
                ∧ Stdin.buffer s = Stdin.ESC :: rest ∧ (length rest ≤ 4)%nat).

(** ** Sample descriptors for the discovery scoring test *)

Definition kbd_by_usage : HID.Descriptor :=
  HID.mkDesc (Some "/dev/hidraw1") (Some 0x1234) (Some 1) (Some "Gadget") (Some "Acme")
             (Some 0x01) (Some 0x06) (Some 2).
Definition kbd_by_name : HID.Descriptor :=
  HID.mkDesc (Some "/dev/hidraw0") (Some 0x1234) (Some 2) (Some "USB Keyboard") (Some "Acme")
             (Some 0x0c) (Some 0x01) (Some 2).
Definition not_a_kbd : HID.Descriptor :=
  HID.mkDesc (Some "/dev/hidraw2") (Some 0x1234) (Some 3) (Some "Optical Mouse") (Some "Acme")
             (Some 0x01) (Some 0x02) (Some 2).
Definition no_path_kbd : HID.Descriptor :=
  HID.mkDesc None (Some 0x1234) (Some 1) (Some "Gadget") (Some "Acme")
             (Some 0x01) (Some 0x06) (Some 2).

(** ** Proof automation *)

Ltac check_window i Hi :=
  do 9 (destruct i as [|i];
        [simpl in Hi;
         first [discriminate
               | injection Hi as <-; first [by left | by right; vm_compute]] |]);
  lia.


Ltac run_send :=
  eexists; split; [cbv -[app]; reflexivity|];
  cbn [Proxy.sock Proxy.ops Proxy.script Proxy.next_conn];
  rewrite <- ?app_assoc; repeat split; reflexivity.


(** * Properties *)

(** ** General facts about edge lists *)

Lemma alt_end_snoc cur l x :
  alt_end cur (l ++ [x]) =
  match alt_end cur l with
  | Some c => if eqb x (negb c) then Some x else None
  | None => None
  end.
Proof.
  revert cur. induction l as [|y l IH]; intros cur; simpl.
  - reflexivity.
  - destruct (eqb y (negb cur)); [apply IH | reflexivity].
Qed.

Lemma alt_end_snoc_list cur l (b : bool) x :
  alt_end cur (l ++ (if b then [x] else [])) =
  if b then
    match alt_end cur l with
    | Some c => if eqb x (negb c) then Some x else None
    | None => None
    end
  else alt_end cur l.
Proof. destruct b; [apply alt_end_snoc | by rewrite app_nil_r]. Qed.



Lemma edges_snoc d q e :
  edges d (q ++ [e]) = edges d q ++ (if decide (ev_key e = d) then [ev_down e] else []).
Proof.
  unfold edges. rewrite filter_app, fmap_app. f_equal.
  rewrite filter_cons, filter_nil. by destruct (decide (ev_key e = d)).
Qed.

Lemma last_down_ts_snoc d q e :
  last_down_ts d (q ++ [e]) =
  if decide (ev_key e = d ∧ ev_down e = true) then Some (ev_ts e) else last_down_ts d q.
Proof.
  unfold last_down_ts. rewrite filter_app, fmap_app.
  rewrite filter_cons, filter_nil.
  destruct (decide (ev_key e = d ∧ ev_down e = true)); simpl.
  - apply last_snoc.
  - by rewrite app_nil_r.
Qed.

(** ** HID report decoding *)

Section hid_decode.
Import HID.

Lemma USAGE_ARROW_MAP_lookup_Some u d :
  USAGE_ARROW_MAP !! u = Some d ↔
  (u = 0x52 ∧ d = "up") ∨ (u = 0x51 ∧ d = "down") ∨
  (u = 0x4F ∧ d = "right") ∨ (u = 0x50 ∧ d = "left").
Proof.
  unfold USAGE_ARROW_MAP.
  rewrite !lookup_insert_Some, lookup_empty. split.
  - intros H. decompose [and or] H; subst; auto; discriminate.
  - intros H. decompose [and or] H; subst; clear H.
    + left; done.
    + right; split; [done|]. left; done.
    + right; split; [done|]. right; split; [done|]. left; done.
    + right; split; [done|]. right; split; [done|]. right; split; [done|]. left; done.
Qed.

Lemma USAGE_ARROW_MAP_direction u d :
  USAGE_ARROW_MAP !! u = Some d → is_direction d.
Proof.
  rewrite USAGE_ARROW_MAP_lookup_Some. unfold is_direction.
  intros H; decompose [and or] H; subst; auto.
Qed.

Lemma elem_of_decode_usage d keys u :
  d ∈ decode_usage keys u ↔ d ∈ keys ∨ USAGE_ARROW_MAP !! u = Some d.
Proof.
  unfold decode_usage. destruct (Z.eqb_spec u 0) as [->|Hu].
  - split; [auto|]. intros [H|H]; [done|].
    apply USAGE_ARROW_MAP_lookup_Some in H. decompose [and or] H; discriminate.
  - destruct (USAGE_ARROW_MAP !! u) as [name|] eqn:E.
    + assert (Hn : str_truthy name = true).
      { apply USAGE_ARROW_MAP_lookup_Some in E.
        decompose [and or] E; subst; reflexivity. }
      rewrite Hn. rewrite elem_of_union, elem_of_singleton.
      split; intros [H|H]; auto; right; congruence.
    + split; [auto|]. intros [H|H]; [done|discriminate].
Qed.

Lemma elem_of_foldl_decode_usage d l keys :
  d ∈ foldl decode_usage keys l ↔
  d ∈ keys ∨ ∃ u, u ∈ l ∧ USAGE_ARROW_MAP !! u = Some d.
Proof.
  revert keys. induction l as [|u l IH]; intros keys; simpl.
  - split; [auto|]. intros [H|(u & Hu & _)]; [done|]. by apply elem_of_nil in Hu.
  - rewrite IH, elem_of_decode_usage. split.
    + intros [[H|H]|(v & Hv & H)]; auto.
      * right. exists u. split; [left|done].
      * right. exists v. split; [by right|done].
    + intros [H|(v & Hv & H)]; auto.
      apply elem_of_cons in Hv as [->|Hv]; [auto|].
      right. eauto.
Qed.

Lemma elem_of_py_slice {A} (buf : list A) (a b : nat) (x : A) :
  x ∈ py_slice buf a b ↔ ∃ i : nat, (a ≤ i < b)%nat ∧ buf !! i = Some x.
Proof.
  unfold py_slice. rewrite elem_of_take. split.
  - intros (i & Hi & Hlt). rewrite lookup_drop in Hi.
    exists (a + i)%nat. split; [lia|done].
  - intros (i & Hr & Hi). exists (i - a)%nat. split; [|lia].
    rewrite lookup_drop. by replace (a + (i - a))%nat with i by lia.
Qed.

Lemma elem_of_decode_offset d buf keys (offset : nat) :
  d ∈ decode_offset buf keys offset ↔
  d ∈ keys ∨ ∃ (i : nat) u, (offset + 2 ≤ i < offset + 8)%nat ∧
                buf !! i = Some u ∧ USAGE_ARROW_MAP !! u = Some d.
Proof.
  unfold decode_offset. rewrite elem_of_foldl_decode_usage.
  split; (intros [H|H]; [by left|right]).
  - destruct H as (u & Hu & Hm). apply elem_of_py_slice in Hu as (i & Hr & Hi).
    exists i, u. split; [lia|done].
  - destruct H as (i & u & Hr & Hi & Hm). exists u. split; [|done].
    apply elem_of_py_slice. exists i. split; [lia|done].
Qed.

Lemma decode_offset_union buf keys offset :
  decode_offset buf keys offset = keys ∪ decode_offset buf ∅ offset.
Proof.
  apply set_eq. intros d.
  rewrite elem_of_union, !elem_of_decode_offset. split.
  - intros [H|H]; [by left | right; by right].
  - intros [H|[H|H]]; [by left | by apply not_elem_of_empty in H | by right].
Qed.

Lemma elem_of_decode d buf :
  d ∈ decode buf ↔
  ∃ (offset i : nat) u, (offset = 0 ∨ offset = 1)%nat ∧
    (offset + 2 ≤ i < offset + 8)%nat ∧
    buf !! i = Some u ∧ USAGE_ARROW_MAP !! u = Some d.
Proof.
  unfold decode. simpl. rewrite !elem_of_decode_offset. split.
  - intros [[H|(i & u & H)]|(i & u & H)].
    + by apply not_elem_of_empty in H.
    + exists 0%nat, i, u. tauto.
    + exists 1%nat, i, u. tauto.
  - intros (o & i & u & [->| ->] & H); [left; right|right]; eauto.
Qed.

Lemma decode_direction d buf : d ∈ decode buf → is_direction d.
Proof.
  rewrite elem_of_decode. intros (o & i & u & _ & _ & _ & H).
  by eapply USAGE_ARROW_MAP_direction.
Qed.

End hid_decode.

(** ** C6: decoding attempts both offsets and takes the union *)

Section claim_C6.
Import HID.

(** C6, as stated, fails: a report with the usage code of "up" at index 2
    and at index 3 and the usage code of "down" at index 4 decodes to two
    directions, not to "up" alone. *)
Lemma C6_counterexample :
  let buf := [0; 0; 0x52; 0x52; 0x51; 0; 0; 0; 0] in
  buf !! 2%nat = Some 0x52 ∧ buf !! 3%nat = Some 0x52 ∧
  USAGE_ARROW_MAP !! 0x52 = Some "up" ∧
  decode buf = {[ "up"; "down" ]} ∧ decode buf ≠ {[ "up" ]}.
Proof.
  repeat split; try (vm_compute; reflexivity).
  intros H. apply (f_equal elements) in H. vm_compute in H. discriminate.
Qed.

(** C6 (amended).  Decoding inspects the windows at indices 2..7 (offset 0)
    and 3..8 (offset 1) of the report and looks every byte up in
    [USAGE_ARROW_MAP]; the result is the union over both offsets, an offset
    only adds directions to what was decoded before; the byte 0 and bytes
    outside the table add nothing.  If the same arrow usage byte sits at
    index 2 or at index 3 (in particular at both) and no byte at indices
    2..8 is a different arrow usage code, the result is exactly that one
    direction. *)
Theorem C6_decode_union_of_offsets (buf : list Z) :
  (∀ d, d ∈ decode buf ↔
        ∃ (offset i : nat) u, (offset = 0 ∨ offset = 1)%nat ∧
          (offset + 2 ≤ i < offset + 8)%nat ∧
          buf !! i = Some u ∧ USAGE_ARROW_MAP !! u = Some d)
  ∧ decode buf = decode_offset buf ∅ 0 ∪ decode_offset buf ∅ 1
  ∧ (∀ keys offset, keys ⊆ decode_offset buf keys offset)
  ∧ (∀ keys, decode_usage keys 0 = keys)
  ∧ (∀ keys u, USAGE_ARROW_MAP !! u = None → decode_usage keys u = keys)
  ∧ (∀ u d,
       USAGE_ARROW_MAP !! u = Some d →
       buf !! 2%nat = Some u ∨ buf !! 3%nat = Some u →
       (∀ (i : nat) v, (2 ≤ i ≤ 8)%nat → buf !! i = Some v →
                       v = u ∨ USAGE_ARROW_MAP !! v = None) →
       decode buf = {[ d ]}).
Proof.
  split; [intros d; apply elem_of_decode|].
  split.
  { unfold decode. simpl. rewrite (decode_offset_union buf _ 1). reflexivity. }
  split.
  { intros keys offset d Hd. apply elem_of_decode_offset. by left. }
  split; [reflexivity|].
  split.
  { intros keys u Hu. unfold decode_usage. rewrite Hu. by destruct (u =? 0)%Z. }
  intros u d Hu Hat Hothers. apply set_eq. intros x.
  rewrite elem_of_decode, elem_of_singleton. split.
  - intros (o & i & v & Ho & Hr & Hi & Hv).
    destruct (Hothers i v) as [->|Hn]; [destruct Ho; lia|done|congruence|congruence].
  - intros ->. destruct Hat as [H2|H3].
    + exists 0%nat, 2%nat, u. repeat split; auto; lia.
    + exists 0%nat, 3%nat, u. repeat split; auto; lia.
Qed.

(** The amended C6 at the two reports of the offset test: the usage code of
    "up" in the first key slot, without and with a leading report-ID byte. *)
Lemma C6_decode_union_of_offsets_witness :
  decode [0; 0; 0x52; 0; 0; 0; 0; 0] = {[ "up" ]} ∧
  decode [1; 0; 0; 0x52; 0; 0; 0; 0; 0] = {[ "up" ]} ∧
  decode [0; 0; 0x52; 0x52; 0; 0; 0; 0; 0] = {[ "up" ]}.
Proof.
  split; [|split].
  - apply (proj2 (proj2 (proj2 (proj2 (proj2
             (C6_decode_union_of_offsets [0; 0; 0x52; 0; 0; 0; 0; 0])))))
           0x52 "up").
    + vm_compute; reflexivity.
    + left; reflexivity.
    + intros i v Hr Hi.
      check_window i Hi.
  - apply (proj2 (proj2 (proj2 (proj2 (proj2
             (C6_decode_union_of_offsets [1; 0; 0; 0x52; 0; 0; 0; 0; 0])))))
           0x52 "up").
    + vm_compute; reflexivity.
    + right; reflexivity.
    + intros i v Hr Hi.
      check_window i Hi.
  - apply (proj2 (proj2 (proj2 (proj2 (proj2
             (C6_decode_union_of_offsets [0; 0; 0x52; 0x52; 0; 0; 0; 0; 0])))))
           0x52 "up").
    + vm_compute; reflexivity.
    + left; reflexivity.
    + intros i v Hr Hi.
      check_window i Hi.
Defined.

End claim_C6.

(** ** The HID run loop: edges, key states and press times *)

Section hid_loop.
Import HID.
Variable it : set_iter.

Lemma iter_NoDup (s : gset string) : NoDup (it s).
Proof. rewrite (iter_perm it s). apply NoDup_elements. Qed.

Lemma elem_of_iter (s : gset string) d : d ∈ it s ↔ d ∈ s.
Proof. rewrite (iter_perm it s). apply elem_of_elements. Qed.

(** What [for k in down: ...] leaves behind, seen from one direction [d]. *)
Lemma foldl_press ts ks : ∀ l d,
  NoDup ks →
  let l' := foldl (press ts) l ks in
  edges d (event_queue l') =
    edges d (event_queue l) ++ (if decide (d ∈ ks) then [true] else [])
  ∧ key_states l' !! d = (if decide (d ∈ ks) then Some true else key_states l !! d)
  ∧ key_press_time l' !! d = (if decide (d ∈ ks) then Some ts else key_press_time l !! d)
  ∧ last_down_ts d (event_queue l') =
      (if decide (d ∈ ks) then Some ts else last_down_ts d (event_queue l))
  ∧ running l' = running l ∧ dev l' = dev l ∧ thread l' = thread l.
Proof.
  induction ks as [|k ks IH]; intros l d Hnd; cbn [foldl].
  - destruct (decide (d ∈ [])) as [H|_]; [by apply elem_of_nil in H|].
    by rewrite app_nil_r.
  - apply NoDup_cons in Hnd as [Hk Hnd].
    destruct (IH (press ts l k) d Hnd) as (He & Hs & Ht & Hl & Hr & Hd & Hth).
    rewrite He, Hs, Ht, Hl, Hr, Hd, Hth. clear IH He Hs Ht Hl Hr Hd Hth.
    cbn [press release event_queue key_states key_press_time running dev thread].
    rewrite edges_snoc, last_down_ts_snoc. cbn [ev_key ev_down ev_ts].
    destruct (decide (k = d)) as [->|Hne];
      [rewrite !lookup_insert_eq | rewrite !lookup_insert_ne by done];
      repeat case_decide; rewrite ?app_nil_r; rewrite ?elem_of_cons in *;
      first [done | exfalso; naive_solver].
Qed.

(** What [for k in up: ...] leaves behind, seen from one direction [d]. *)
Lemma foldl_release ts ks : ∀ l d,
  NoDup ks →
  let l' := foldl (release ts) l ks in
  edges d (event_queue l') =
    edges d (event_queue l) ++ (if decide (d ∈ ks) then [false] else [])
  ∧ key_states l' !! d = (if decide (d ∈ ks) then Some false else key_states l !! d)
  ∧ key_press_time l' !! d = key_press_time l !! d
  ∧ last_down_ts d (event_queue l') = last_down_ts d (event_queue l)
  ∧ running l' = running l ∧ dev l' = dev l ∧ thread l' = thread l.
Proof.
  induction ks as [|k ks IH]; intros l d Hnd; cbn [foldl].
  - destruct (decide (d ∈ [])) as [H|_]; [by apply elem_of_nil in H|].
    by rewrite app_nil_r.
  - apply NoDup_cons in Hnd as [Hk Hnd].
    destruct (IH (release ts l k) d Hnd) as (He & Hs & Ht & Hl & Hr & Hd & Hth).
    rewrite He, Hs, Ht, Hl, Hr, Hd, Hth. clear IH He Hs Ht Hl Hr Hd Hth.
    cbn [press release event_queue key_states key_press_time running dev thread].
    rewrite edges_snoc, last_down_ts_snoc. cbn [ev_key ev_down ev_ts].
    destruct (decide (k = d)) as [->|Hne];
      [rewrite !lookup_insert_eq | rewrite !lookup_insert_ne by done];
      repeat case_decide; rewrite ?app_nil_r; rewrite ?elem_of_cons in *;
      first [done | exfalso; naive_solver].
Qed.

(** What one non-empty report does to the edges, the state and the press
    time of direction [d]. *)
Lemma process_report_direction data ts s d :
  let s' := process_report it data ts s in
  let keys := decode data in
  let is_down := bool_decide (d ∈ keys ∧ d ∉ prev_keys s) in
  let is_up := bool_decide (d ∈ prev_keys s ∧ d ∉ keys) in
  edges d (event_queue (self s')) =
    edges d (event_queue (self s))
      ++ (if is_down then [true] else []) ++ (if is_up then [false] else [])
  ∧ key_states (self s') !! d =
      (if is_up then Some false
       else if is_down then Some true else key_states (self s) !! d)
  ∧ key_press_time (self s') !! d =
      (if is_down then Some ts else key_press_time (self s) !! d)
  ∧ last_down_ts d (event_queue (self s')) =
      (if is_down then Some ts else last_down_ts d (event_queue (self s)))
  ∧ prev_keys s' = keys ∧ error_count s' = 0 ∧ slept s' = slept s
  ∧ running (self s') = running (self s)
  ∧ dev (self s') = dev (self s) ∧ thread (self s') = thread (self s).
Proof.
  unfold process_report. cbn [self prev_keys error_count slept].
  set (keys := decode data). set (down := keys ∖ prev_keys s).
  set (up := prev_keys s ∖ keys).
  destruct (foldl_release ts (it up) (foldl (press ts) (self s) (it down)) d
              (iter_NoDup up)) as (He & Hs & Ht & Hl & Hr & Hd & Hth).
  destruct (foldl_press ts (it down) (self s) d (iter_NoDup down))
    as (He' & Hs' & Ht' & Hl' & Hr' & Hd' & Hth').
  cbn zeta in *.
  rewrite He, Hs, Ht, Hl, Hr, Hd, Hth, He', Hs', Ht', Hl', Hr', Hd', Hth'.
  assert (Hdown : d ∈ it down ↔ d ∈ keys ∧ d ∉ prev_keys s).
  { rewrite elem_of_iter. unfold down. apply elem_of_difference. }
  assert (Hup : d ∈ it up ↔ d ∈ prev_keys s ∧ d ∉ keys).
  { rewrite elem_of_iter. unfold up. apply elem_of_difference. }
  rewrite <- app_assoc.
  repeat split; repeat case_decide; repeat case_bool_decide;
    first [done | exfalso; tauto].
Qed.

Lemma hid_inv_process_report data ts s d :
  hid_inv d s → hid_inv d (process_report it data ts s).
Proof.
  intros (Ha & Hp & Hdir & Hnd & Hc & Hrun).
  destruct (process_report_direction data ts s d)
    as (He & Hs & Ht & Hl & Hk & Hec & _).
  cbn zeta in *. unfold hid_inv. rewrite He, Hs, Ht, Hl, Hk, Hec.
  assert (Hkd : d ∈ decode data → is_direction d) by apply decode_direction.
  split; [|split; [done|split; [|split; [|split]]]].
  - rewrite app_assoc, !alt_end_snoc_list, Ha.
    repeat case_bool_decide; simpl; first [done | exfalso; tauto].
  - intros Hd. destruct (Hdir Hd) as [Hst Hpt]. rewrite Hst, Hpt.
    repeat case_bool_decide; simpl; first [done | exfalso; tauto].
  - intros Hd. destruct (Hnd Hd) as [Hst Hpt]. rewrite Hst, Hpt.
    repeat case_bool_decide; simpl; first [done | exfalso; tauto].
  - unfold max_errors. lia.
  - unfold max_errors. lia.
Qed.

Lemma hid_inv_count_error backoff s d :
  hid_inv d s → running (self s) = true → hid_inv d (fst (count_error backoff s)).
Proof.
  intros (Ha & Hp & Hdir & Hnd & Hc & Hrun) Hr. specialize (Hrun Hr).
  unfold count_error, hid_inv, max_errors in *.
  destruct (Z.geb_spec (error_count s + 1) 10); simpl;
    refine (conj Ha (conj Hp (conj Hdir (conj Hnd (conj _ _)))));
    first [lia | intros; first [done | lia]].
Qed.

Lemma hid_inv_body o s d :
  hid_inv d s → running (self s) = true → hid_inv d (fst (body it o s)).
Proof.
  intros Hinv Hr. destruct o as [data ts|[|]|]; simpl.
  - destruct data as [|b data]; [|by apply hid_inv_process_report].
    exact Hinv.
  - destruct Hinv as (Ha & Hp & Hdir & Hnd & Hc & Hrun).
    refine (conj Ha (conj Hp (conj Hdir (conj Hnd (conj Hc _))))). done.
  - by apply hid_inv_count_error.
  - by apply hid_inv_count_error.
Qed.

Lemma hid_inv_loop inputs : ∀ s d, hid_inv d s → hid_inv d (loop it inputs s).
Proof.
  induction inputs as [|i inputs IH]; intros s d Hinv; simpl; [done|].
  destruct (running (self s)) eqn:Hr; [|done].
  destruct i as [o|].
  - pose proof (hid_inv_body o s d Hinv Hr) as Hb.
    destruct (body it o s) as [s' [|]]; simpl in Hb; [by apply IH|done].
  - apply IH. destruct Hinv as (Ha & Hp & Hdir & Hnd & Hc & Hrun).
    refine (conj Ha (conj Hp (conj Hdir (conj Hnd (conj Hc _))))). done.
Qed.

Lemma initial_key_states_lookup d :
  initial_key_states !! d = if decide (is_direction d) then Some false else None.
Proof.
  unfold initial_key_states, is_direction.
  case_decide as H.
  - decompose [or] H; subst; reflexivity.
  - rewrite !lookup_insert_ne by (intros <-; tauto). apply lookup_empty.
Qed.

Lemma initial_key_press_time_lookup d :
  initial_key_press_time !! d = if decide (is_direction d) then Some 0 else None.
Proof.
  unfold initial_key_press_time, is_direction.
  case_decide as H.
  - decompose [or] H; subst; reflexivity.
  - rewrite !lookup_insert_ne by (intros <-; tauto). apply lookup_empty.
Qed.

Lemma hid_inv_started h d : hid_inv d (mkRun (started h) ∅ 0 []).
Proof.
  unfold hid_inv, max_errors.
  cbn [self prev_keys error_count started event_queue key_states key_press_time running].
  rewrite initial_key_states_lookup, initial_key_press_time_lookup.
  rewrite !bool_decide_eq_false_2 by apply not_elem_of_empty.
  split; [done|]. split; [intros H; by apply not_elem_of_empty in H|].
  split; [intros H; rewrite !decide_True by done; split; reflexivity|].
  split; [intros H; rewrite !decide_False by done; split; reflexivity|]. lia.
Qed.

Lemma hid_inv_run inputs h d : hid_inv d (_run it inputs (started h)).
Proof. apply hid_inv_loop, hid_inv_started. Qed.

End hid_loop.

(** ** The terminal run loop *)

Section stdin_loop.
Import Stdin.

Lemma ESCAPE_MAP_lookup_Some seq key :
  ESCAPE_MAP !! seq = Some key → is_direction key ∧ str_truthy key = true.
Proof.
  unfold ESCAPE_MAP, is_direction.
  rewrite !lookup_insert_Some, lookup_empty.
  intros H. decompose [and or] H; subst; auto 6; discriminate.
Qed.

(** A character other than Ctrl+C and ESC either leaves the listener as it
    is or records one down-edge of a direction. *)
Lemma on_char_self ch t1 t2 s :
  self (on_char ch t1 t2 s) = self s
  ∨ ∃ key, is_direction key ∧ self (on_char ch t1 t2 s) = press key t1 t2 (self s).
Proof.
  unfold on_char. destruct (escape_sequence_start s); [|by left].
  destruct (complete_arrow _).
  - cbn [self]. destruct (ESCAPE_MAP !! _) as [key|] eqn:E; [|by left].
    apply ESCAPE_MAP_lookup_Some in E as [Hd Ht]. rewrite Ht. right. eauto.
  - destruct (_ <? _)%nat; by left.
Qed.

(** One loop iteration, seen from the listener object. *)
Lemma body_self i s :
  self (fst (body i s)) = self s
  ∨ self (fst (body i s)) = set_running false (self s)
  ∨ ∃ ch t1 t2 key, i = ReadChar ch t1 t2 ∧ is_direction key
      ∧ self (fst (body i s)) = press key t1 t2 (self s).
Proof.
  destruct i as [now|ch t1 t2| | |]; simpl.
  - destruct (escape_sequence_start s); [|by left].
    destruct (_ <? _)%Z; by left.
  - destruct (Ascii.eqb ch CTRL_C); [right; by left|].
    destruct (Ascii.eqb ch ESC); [by left|]. cbn [fst].
    destruct (on_char_self ch t1 t2 s) as [H|(key & Hk & H)]; [by left|].
    right; right. eauto 8.
  - by left.
  - by left.
  - right; by left.
Qed.

Lemma stdin_inv_set_running b l d : stdin_inv d l → stdin_inv d (set_running b l).
Proof. done. Qed.

Lemma stdin_inv_press key t1 t2 l d :
  is_direction key → stdin_inv d l → stdin_inv d (press key t1 t2 l).
Proof.
  intros Hk (Hall & Hdir & Hnd). unfold stdin_inv.
  cbn [press event_queue key_states key_press_time].
  rewrite edges_snoc. cbn [ev_key ev_down].
  split; [|split].
  - apply Forall_app. split; [done|]. by constructor.
  - intros Hd. destruct (decide (key = d)) as [->|Hne].
    + rewrite lookup_insert_eq. f_equal. symmetry. apply bool_decide_eq_true_2.
      by destruct (edges d (event_queue l)).
    + rewrite lookup_insert_ne, app_nil_r by done. by apply Hdir.
  - intros Hd. rewrite !lookup_insert_ne by (intros ->; done).
    rewrite decide_False by (intros ->; done). rewrite app_nil_r. by apply Hnd.
Qed.

Lemma stdin_inv_body i s d :
  stdin_inv d (self s) → stdin_inv d (self (fst (body i s))).
Proof.
  intros Hinv.
  destruct (body_self i s) as [-> | [-> | (ch & t1 & t2 & key & _ & Hk & ->)]];
    [done|done|by apply stdin_inv_press].
Qed.

Lemma stdin_inv_loop inputs : ∀ s d,
  stdin_inv d (self s) → stdin_inv d (self (loop inputs s)).
Proof.
  induction inputs as [|i inputs IH]; intros s d Hinv; simpl; [done|].
  destruct (running (self s)); [|done].
  pose proof (stdin_inv_body i s d Hinv) as Hb.
  destruct (body i s) as [s' [|]]; simpl in Hb; [by apply IH|done].
Qed.

Lemma stdin_inv_started saved d : stdin_inv d (started saved).
Proof.
  unfold stdin_inv, started, start, init.
  cbn [event_queue key_states key_press_time].
  rewrite initial_key_states_lookup, initial_key_press_time_lookup.
  split; [constructor|].
  split; [intros H; by rewrite decide_True|].
  intros H. by rewrite !decide_False.
Qed.


Lemma stdin_inv_run inputs saved d :
  stdin_inv d (self (_run inputs (started saved))).
Proof. apply stdin_inv_loop. simpl. apply stdin_inv_started. Qed.

End stdin_loop.

(** ** Extending a run: the queue only grows *)




Section hid_extend.
Import HID.
Variable it : set_iter.




Lemma hid_body_break o s s' :
  body it o s = (s', Break) → running (self s') = false.
Proof.
  destruct o as [data ts|[|]|]; simpl.
  - by destruct data.
  - by intros [= <-].
  - unfold count_error. destruct (_ >=? _)%Z; [by intros [= <-]|done].
  - unfold count_error. destruct (_ >=? _)%Z; [by intros [= <-]|done].
Qed.

Lemma hid_loop_stopped inputs s :
  running (self s) = false → loop it inputs s = s.
Proof. intros H. destruct inputs; simpl; [done|by rewrite H]. Qed.

Lemma hid_loop_app a : ∀ b s, loop it (a ++ b) s = loop it b (loop it a s).
Proof.
  induction a as [|i a IH]; intros b s; simpl; [done|].
  destruct (running (self s)) eqn:Hr; [|by rewrite hid_loop_stopped].
  destruct i as [o|]; [|apply IH].
  destruct (body it o s) as [s' [|]] eqn:Hb; [apply IH|].
  apply hid_body_break in Hb. by rewrite hid_loop_stopped.
Qed.


End hid_extend.

Section stdin_extend.
Import Stdin.

Lemma stdin_body_break i s s' :
  body i s = (s', Break) → running (self s') = false.
Proof.
  destruct i as [now|ch t1 t2| | |]; simpl; try done.
  - destruct (escape_sequence_start s); [|done]. by destruct (_ <? _)%Z.
  - destruct (Ascii.eqb ch CTRL_C); [by intros [= <-]|].
    by destruct (Ascii.eqb ch ESC).
Qed.

Lemma stdin_loop_stopped inputs s :
  running (self s) = false → loop inputs s = s.
Proof. intros H. destruct inputs; simpl; [done|by rewrite H]. Qed.

Lemma stdin_loop_app a : ∀ b s, loop (a ++ b) s = loop b (loop a s).
Proof.
  induction a as [|i a IH]; intros b s; simpl; [done|].
  destruct (running (self s)) eqn:Hr; [|by rewrite stdin_loop_stopped].
  destruct (body i s) as [s' [|]] eqn:Hb; [apply IH|].
  apply stdin_body_break in Hb. by rewrite stdin_loop_stopped.
Qed.


End stdin_extend.

(** ** C1: alternation of down- and up-edges *)

Section claim_C1.



End claim_C1.

(** ** C10: key names outside the four directions *)

Section claim_C10.

(** C10.  In every state either engine can reach, and for every reading
    [now] of the clock, a key name that is not one of the four directions
    is reported as not pressed, with duration 0; both queries are total
    functions. *)
Theorem C10_unknown_key_not_pressed (key : string) :
  ¬ is_direction key →
  (∀ (it : set_iter) inputs h now,
     let s := HID._run it inputs (HID.started h) in
     is_pressed (HID.key_states (HID.self s)) key = false
     ∧ pressed_duration (HID.key_states (HID.self s))
                        (HID.key_press_time (HID.self s)) now key = 0)
  ∧ (∀ inputs saved now,
       let s := Stdin._run inputs (Stdin.started saved) in
       is_pressed (Stdin.key_states (Stdin.self s)) key = false
       ∧ pressed_duration (Stdin.key_states (Stdin.self s))
                          (Stdin.key_press_time (Stdin.self s)) now key = 0)
  ∧ is_pressed (HID.key_states HID.init) key = false
  ∧ is_pressed (Stdin.key_states Stdin.init) key = false.
Proof.
  intros Hk. split; [|split; [|split]].
  - intros it inputs h now s.
    destruct (hid_inv_run it inputs h key) as (_ & _ & _ & Hnd & _).
    destruct (Hnd Hk) as [Hs _]. fold s in Hs.
    unfold pressed_duration, is_pressed. by rewrite Hs.
  - intros inputs saved now s.
    destruct (stdin_inv_run inputs saved key) as (_ & _ & Hnd).
    destruct (Hnd Hk) as [Hs _]. fold s in Hs.
    unfold pressed_duration, is_pressed. by rewrite Hs.
  - unfold is_pressed. cbn [HID.init HID.key_states].
    by rewrite initial_key_states_lookup, decide_False.
  - unfold is_pressed. cbn [Stdin.init Stdin.key_states].
    by rewrite initial_key_states_lookup, decide_False.
Qed.

Lemma C10_unknown_key_not_pressed_witness :
  ¬ is_direction "space"
  ∧ is_pressed
      (HID.key_states (HID.self
         (HID._run elements_iter [HID.Read (HID.ReadData [0; 0; 0x52] 5)]
                   (HID.started (ByPath "/dev/hidraw0"))))) "space" = false
  ∧ pressed_duration
      (Stdin.key_states (Stdin.self
         (Stdin._run [Stdin.ReadChar Stdin.ESC 0 0] (Stdin.started None))))
      (Stdin.key_press_time (Stdin.self
         (Stdin._run [Stdin.ReadChar Stdin.ESC 0 0] (Stdin.started None))))
      7 "space" = 0.
Proof.
  assert (Hn : ¬ is_direction "space").
  { unfold is_direction. intros H. decompose [or] H; discriminate. }
  split; [exact Hn|]. split.
  - exact (proj1 (proj1 (C10_unknown_key_not_pressed "space" Hn) elements_iter
                    [HID.Read (HID.ReadData [0; 0; 0x52] 5)]
                    (ByPath "/dev/hidraw0") 0)).
  - exact (proj2 (proj1 (proj2 (C10_unknown_key_not_pressed "space" Hn))
                    [Stdin.ReadChar Stdin.ESC 0 0] None 7)).
Defined.

End claim_C10.

(** ** C4: the error counter and its ceiling *)

Section claim_C4.
Import HID.
Variable it : set_iter.

Lemma count_error_below backoff s :
  error_count s + 1 < max_errors →
  count_error backoff s =
    (mkRun (self s) (prev_keys s) (error_count s + 1) (slept s ++ [backoff]), Continue).
Proof.
  intros H. unfold count_error.
  destruct (Z.geb_spec (error_count s + 1) max_errors); [lia|done].
Qed.

Lemma count_error_ceiling backoff s :
  max_errors ≤ error_count s + 1 →
  count_error backoff s =
    (mkRun (set_running false (self s)) (prev_keys s) (error_count s + 1) (slept s), Break).
Proof.
  intros H. unfold count_error.
  destruct (Z.geb_spec (error_count s + 1) max_errors); [done|lia].
Qed.

Lemma body_transient o s :
  is_transient o → body it o s = count_error (backoff o) s.
Proof. by intros [-> | ->]. Qed.

(** Enough transient errors in a row stop the loop, whatever follows. *)
Lemma loop_errors_to_ceiling errs : ∀ s more,
  running (self s) = true →
  error_count s < max_errors →
  Forall is_transient errs →
  Z.of_nat (length errs) = max_errors - error_count s →
  loop it ((Read <$> errs) ++ more) s = loop it (Read <$> errs) s
  ∧ running (self (loop it (Read <$> errs) s)) = false
  ∧ error_count (loop it (Read <$> errs) s) = max_errors
  ∧ event_queue (self (loop it (Read <$> errs) s)) = event_queue (self s).
Proof.
  induction errs as [|o errs IH]; intros s more Hr Hc Hall Hlen.
  - simpl in Hlen. lia.
  - apply Forall_cons in Hall as [Ho Hall]. simpl. rewrite Hr.
    rewrite (body_transient o s Ho).
    destruct (decide (error_count s + 1 < max_errors)) as [Hlt|Hge].
    + rewrite count_error_below by done.
      destruct (IH (mkRun (self s) (prev_keys s) (error_count s + 1)
                          (slept s ++ [backoff o])) more) as (H1 & H2 & H3 & H4);
        try done.
      cbn [error_count length] in *. lia.
    + rewrite count_error_ceiling by lia.
      cbn [self error_count set_running running event_queue].
      repeat split. lia.
Qed.

(** C4.  A transient read error ([OSError] while running, or any other
    exception in the loop body) adds one to the error counter; below the
    ceiling the loop sleeps (0.1 s or 0.5 s) and goes round again; when the
    counter reaches [max_errors = 10] the loop clears [running] and ends.
    [_run] is a total function: nothing is raised to its caller.  A read
    that returns data sets the counter to 0; a read that returns nothing
    leaves it as it is.  Along every run the counter stays within 0..10
    and is below 10 while the engine is running; from a running engine,
    as many transient errors in a row as are missing to the ceiling stop
    the loop, and no later input is looked at. *)
Theorem C4_error_counter_ceiling :
  (∀ s o, is_transient o → error_count s + 1 < max_errors →
     body it o s =
       (mkRun (self s) (prev_keys s) (error_count s + 1) (slept s ++ [backoff o]),
        Continue))
  ∧ (∀ s o, is_transient o → max_errors ≤ error_count s + 1 →
       body it o s =
         (mkRun (set_running false (self s)) (prev_keys s) (error_count s + 1) (slept s),
          Break))
  ∧ (∀ s b data ts,
       error_count (fst (body it (ReadData (b :: data) ts) s)) = 0
       ∧ snd (body it (ReadData (b :: data) ts) s) = Continue
       ∧ running (self (fst (body it (ReadData (b :: data) ts) s))) = running (self s))
  ∧ (∀ s ts,
       body it (ReadData [] ts) s =
         (mkRun (self s) (prev_keys s) (error_count s) (slept s ++ [10000]), Continue))
  ∧ (∀ inputs h,
       let s := _run it inputs (started h) in
       0 ≤ error_count s ≤ max_errors
       ∧ (running (self s) = true → error_count s < max_errors))
  ∧ (∀ pre h errs more,
       let s := _run it pre (started h) in
       running (self s) = true →
       Forall is_transient errs →
       Z.of_nat (length errs) = max_errors - error_count s →
       let s' := _run it (pre ++ (Read <$> errs) ++ more) (started h) in
       s' = _run it (pre ++ (Read <$> errs)) (started h)
       ∧ running (self s') = false
       ∧ error_count s' = max_errors
       ∧ event_queue (self s') = event_queue (self s)).
Proof.
  split; [|split; [|split; [|split; [|split]]]].
  - intros s o Ho Hc. rewrite body_transient by done. by apply count_error_below.
  - intros s o Ho Hc. rewrite body_transient by done. by apply count_error_ceiling.
  - intros s b data ts. cbn [body fst snd].
    destruct (process_report_direction it (b :: data) ts s "up")
      as (_ & _ & _ & _ & _ & Hec & _ & Hr & _).
    done.
  - done.
  - intros inputs h s.
    by destruct (hid_inv_run it inputs h "up") as (_ & _ & _ & _ & Hc & Hr).
  - intros pre h errs more s Hr Hall Hlen s'.
    destruct (hid_inv_run it pre h "up") as (_ & _ & _ & _ & _ & Hlt).
    fold s in Hlt. specialize (Hlt Hr).
    unfold s', _run.
    rewrite (hid_loop_app it pre ((Read <$> errs) ++ more)).
    rewrite (hid_loop_app it pre (Read <$> errs)).
    fold (_run it pre (started h)). fold s.
    destruct (loop_errors_to_ceiling errs s more Hr Hlt Hall Hlen) as (H1 & H2 & H3 & H4).
    by rewrite H1.
Qed.

End claim_C4.

(** The ceiling at work: nine errors, an empty read, then a tenth error stop
    the engine; the report that follows is never processed. *)
Lemma C4_error_counter_ceiling_witness :
  let pre := replicate 9 (HID.Read HID.ReadError) ++ [HID.Read (HID.ReadData [] 0)] in
  let errs := [HID.ReadOSError false] in
  let more := [HID.Read (HID.ReadData [0; 0; 0x52] 1)] in
  let h := ByPath "/dev/hidraw0" in
  let s' := HID._run elements_iter (pre ++ (HID.Read <$> errs) ++ more) (HID.started h) in
  HID.running (HID.self s') = false
  ∧ HID.error_count s' = HID.max_errors
  ∧ HID.event_queue (HID.self s') = [].
Proof.
  cbn zeta.
  destruct (C4_error_counter_ceiling elements_iter) as (_ & _ & _ & _ & _ & H).
  destruct (H (replicate 9 (HID.Read HID.ReadError) ++ [HID.Read (HID.ReadData [] 0)])
              (ByPath "/dev/hidraw0")
              [HID.ReadOSError false]
              [HID.Read (HID.ReadData [0; 0; 0x52] 1)]) as (_ & H2 & H3 & H4).
  - vm_compute; reflexivity.
  - repeat constructor.
  - vm_compute; reflexivity.
  - split; [exact H2|]. split; [exact H3|]. rewrite H4. vm_compute; reflexivity.
Defined.

(** ** C3: [is_pressed] and [pressed_duration] *)




Section claim_C3.








End claim_C3.

(** ** C7: the escape-sequence timeout *)

Section claim_C7.
Import Stdin.

(** Polling with nothing pending changes nothing. *)
Lemma polls_idle polls : ∀ s,
  escape_sequence_start s = None → loop (NotReady <$> polls) s = s.
Proof.
  induction polls as [|p polls IH]; intros s Hs; simpl; [done|].
  destruct (running (self s)); [|done]. rewrite Hs. by apply IH.
Qed.

(** A pending sequence is discarded by the first poll that finds it older
    than the timeout. *)
Lemma polls_timeout polls : ∀ s t0,
  running (self s) = true →
  escape_sequence_start s = Some t0 →
  Exists (λ p, escape_timeout < p - t0) polls →
  loop (NotReady <$> polls) s = mkRun (self s) [] None (effects s).
Proof.
  induction polls as [|p polls IH]; intros s t0 Hr Hs Hex.
  - by apply Exists_nil in Hex.
  - simpl. rewrite Hr, Hs.
    destruct (Z.ltb_spec escape_timeout (p - t0)) as [Hlt|Hge].
    + by apply polls_idle.
    + apply Exists_cons in Hex as [Hex|Hex]; [lia|]. by eapply IH.
Qed.

Lemma loop_continue i rest s s' :
  running (self s) = true → body i s = (s', Continue) →
  loop (i :: rest) s = loop rest s'.
Proof. intros Hr Hb. simpl. by rewrite Hr, Hb. Qed.

Lemma body_ESC l buf st eff t1 t2 :
  body (ReadChar ESC t1 t2) (mkRun l buf st eff)
  = (mkRun l [ESC] (Some t1) eff, Continue).
Proof. reflexivity. Qed.

Lemma body_bracket l st eff t1 t2 :
  body (ReadChar "[" t1 t2) (mkRun l [ESC] (Some st) eff)
  = (mkRun l [ESC; "["%char] (Some st) eff, Continue).
Proof. reflexivity. Qed.

Lemma body_final_A l st eff t1 t2 :
  body (ReadChar "A" t1 t2) (mkRun l [ESC; "["%char] (Some st) eff)
  = (mkRun (press "up" t1 t2 l) [] None eff, Continue).
Proof.
  cbn [body]. simpl Ascii.eqb. cbn iota. unfold on_char.
  cbn [escape_sequence_start buffer app self effects].
  replace (ESCAPE_MAP !! string_of_list_ascii [ESC; "["%char; "A"%char])
    with (Some "up") by (vm_compute; reflexivity).
  reflexivity.
Qed.

(** Polls either leave a pending sequence as it is or discard it. *)
Lemma polls_cases polls : ∀ s,
  loop (NotReady <$> polls) s = s
  ∨ loop (NotReady <$> polls) s = mkRun (self s) [] None (effects s).
Proof.
  induction polls as [|p polls IH]; intros s; simpl; [by left|].
  destruct (running (self s)); [|by left].
  destruct (escape_sequence_start s) as [t0|] eqn:Hs; [|apply IH].
  destruct (_ <? _)%Z; [|apply IH].
  right. by apply polls_idle.
Qed.

Lemma body_idle_char l eff ch t1 t2 :
  Ascii.eqb ch CTRL_C = false → Ascii.eqb ch ESC = false →
  body (ReadChar ch t1 t2) (mkRun l [] None eff) = (mkRun l [] None eff, Continue).
Proof. intros H1 H2. cbn [body]. by rewrite H1, H2. Qed.

(** The decoder alone, one character per pass.  From any state of the
    running loop: when the loop reads ESC (at [t0]) and '[' (at [tb], not
    before [t0]), with or without polls in between, and then polls without
    input, one of them more than 100 ms after [tb], the buffer is empty, no
    sequence is pending and the listener with its queue is as before.  When
    three later passes read ESC, '[' and 'A', one per pass, exactly one
    event is enqueued, a down-edge for "up". *)
Lemma stalled_sequence_then_arrow_read_bytewise
    (s : RunState) (t0 t0' tb tb' : Z) (between polls : list Z) :
  running (self s) = true →
  t0 ≤ tb →
  Exists (λ p, escape_timeout < p - tb) polls →
  let stalled :=
    [ReadChar ESC t0 t0'] ++ (NotReady <$> between)
      ++ [ReadChar "[" tb tb'] ++ (NotReady <$> polls) in
  let s1 := loop stalled s in
  buffer s1 = [] ∧ escape_sequence_start s1 = None
  ∧ self s1 = self s
  ∧ event_queue (self s1) = event_queue (self s)
  ∧ ∀ ta ta' tc tc' t1 t2,
      let s2 := loop [ReadChar ESC ta ta'; ReadChar "[" tc tc'; ReadChar "A" t1 t2] s1 in
      event_queue (self s2) = event_queue (self s) ++ [mkEvent "up" true t2]
      ∧ is_pressed (key_states (self s2)) "up" = true
      ∧ key_press_time (self s2) !! "up" = Some t1
      ∧ buffer s2 = [] ∧ escape_sequence_start s2 = None.
Proof.
  intros Hr Hle Hex stalled s1.
  assert (Hs1 : s1 = mkRun (self s) [] None (effects s)).
  { unfold s1, stalled. destruct s as [l buf st eff]. cbn [self effects] in *.
    cbn [app].
    rewrite (loop_continue _ _ (mkRun l buf st eff) _ Hr (body_ESC l buf st eff t0 t0')).
    rewrite stdin_loop_app.
    destruct (polls_cases between (mkRun l [ESC] (Some t0) eff)) as [-> | ->];
      cbn [self effects app].
    - rewrite (loop_continue _ _ (mkRun l [ESC] (Some t0) eff) _ Hr
                 (body_bracket l t0 eff tb tb')).
      rewrite (polls_timeout polls _ t0); [done|done|done|].
      eapply Exists_impl; [exact Hex|]. simpl. intros p Hp. lia.
    - rewrite (loop_continue _ _ (mkRun l [] None eff) _ Hr
                 (body_idle_char l eff "["%char tb tb' eq_refl eq_refl)).
      by apply polls_idle. }
  rewrite Hs1. cbn [buffer escape_sequence_start self].
  split; [done|]. split; [done|]. split; [done|]. split; [done|].
  intros ta ta' tc tc' t1 t2.
  rewrite (loop_continue _ _ (mkRun (self s) [] None (effects s)) _ Hr
             (body_ESC _ _ _ _ ta ta')).
  rewrite (loop_continue _ _ (mkRun (self s) [ESC] (Some ta) (effects s)) _ Hr
             (body_bracket _ ta _ tc tc')).
  rewrite (loop_continue _ _ (mkRun (self s) [ESC; "["%char] (Some ta) (effects s)) _ Hr
             (body_final_A _ ta _ t1 t2)).
  cbn [loop self buffer escape_sequence_start press event_queue key_states key_press_time].
  unfold is_pressed. rewrite !lookup_insert_eq. done.
Qed.

(** Passes of the loop while the descriptor has nothing to offer time out,
    whatever the text layer holds. *)
Lemma loop_inputs_nothing_at_descriptor polls : ∀ held,
  loop_inputs ((λ p, Iterate p p) <$> polls) (mkTty [] held)
  = (NotReady <$> polls, mkTty [] held).
Proof.
  induction polls as [|p polls IH]; intros held; [done|].
  cbn [fmap list_fmap loop_inputs select_ready fd_pending].
  by rewrite IH.
Qed.

(** An arrow key that arrives in one piece at an idle terminal: the first
    pass reads ESC and moves the other two bytes into the text layer, where
    [select] does not see them; the passes after it time out. *)
Lemma loop_inputs_arrow_burst x t1 t2 polls :
  loop_inputs (Arrive [ESC; "["%char; x] :: Iterate t1 t2 :: ((λ p, Iterate p p) <$> polls))
              idle_tty
  = (ReadChar ESC t1 t2 :: (NotReady <$> polls), mkTty [] ["["%char; x]).
Proof.
  cbn [loop_inputs idle_tty fd_pending text_buffer app select_ready].
  assert (Hr : read1 (mkTty [ESC; "["%char; x] [])
               = (Some ESC, mkTty [] ["["%char; x])) by (vm_compute; reflexivity).
  rewrite Hr. by rewrite loop_inputs_nothing_at_descriptor.
Qed.

(** Such a burst, left alone, is never decoded: whatever the state of the
    loop and however long it goes on polling, the listener with its queue
    and key states stays as it was. *)
Lemma arrow_burst_is_not_decoded x t1 t2 polls s :
  self (loop (fst (loop_inputs
                     (Arrive [ESC; "["%char; x] :: Iterate t1 t2
                        :: ((λ p, Iterate p p) <$> polls)) idle_tty)) s)
  = self s.
Proof.
  rewrite loop_inputs_arrow_burst. cbn [fst].
  destruct (running (self s)) eqn:Hr; [|by rewrite stdin_loop_stopped].
  destruct s as [l buf st eff]. cbn [self] in Hr.
  rewrite (loop_continue _ _ (mkRun l buf st eff) _ Hr (body_ESC l buf st eff t1 t2)).
  by destruct (polls_cases polls (mkRun l [ESC] (Some t1) eff)) as [-> | ->].
Qed.

(** C7.  The code at the failing input.  ESC and '[' arrive and are read,
    then the loop polls for more than 100 ms: the pending sequence is
    discarded and no event is enqueued, as the claim says.  Then the three
    bytes ESC '[' 'A' arrive in one piece, as a terminal delivers an arrow
    key.  The next pass reads ESC and moves '[' and 'A' into the buffer of
    the text layer; [select] finds nothing at the descriptor from then on,
    every later pass times out, the pending ESC is discarded after 100 ms
    and no event for "up" is enqueued: '[' and 'A' are still held by the
    text layer at the end.  The same three bytes arriving one per pass are
    decoded. *)
Theorem C7_arrow_burst_after_timeout_is_lost :
  let polls ts := (λ p, Iterate p p) <$> ts in
  let stalled :=
    [Arrive [ESC]; Iterate 0 0; Arrive ["["%char]; Iterate 1000 1000]
      ++ polls [11000; 21000; 31000; 41000; 51000; 61000; 71000; 81000; 91000;
                101000; 111000] in
  let silence := polls [210000; 220000; 250000; 290000; 310000; 400000] in
  let burst := [Arrive [ESC; "["; "A"]%char; Iterate 200000 200000] ++ silence in
  let bytewise :=
    [Arrive [ESC]; Iterate 200000 200000; Arrive ["["%char]; Iterate 200001 200001;
     Arrive ["A"%char]; Iterate 200002 200003] ++ silence in
  let l := started (Some [0]) in
  let r1 := run_on_tty stalled l in
  let r2 := run_on_tty (stalled ++ burst) l in
  let r3 := run_on_tty (stalled ++ bytewise) l in
  (buffer (fst r1) = [] ∧ escape_sequence_start (fst r1) = None
   ∧ event_queue (self (fst r1)) = [])
  ∧ (fst (loop_inputs burst idle_tty)
     = ReadChar ESC 200000 200000
         :: (NotReady <$> [210000; 220000; 250000; 290000; 310000; 400000]))
  ∧ (event_queue (self (fst r2)) = []
     ∧ is_pressed (key_states (self (fst r2))) "up" = false
     ∧ buffer (fst r2) = [] ∧ escape_sequence_start (fst r2) = None
     ∧ snd r2 = mkTty [] ["["; "A"]%char)
  ∧ (event_queue (self (fst r3)) = [mkEvent "up" true 200003]
     ∧ snd r3 = idle_tty).
Proof. cbn zeta. repeat split; vm_compute; reflexivity. Qed.

End claim_C7.

(** ** C2: the order of operations in [stop()] *)

Section claim_C2.

(** C2, as stated, fails for the terminal engine: [stop()] on a started
    listener with a live worker and saved terminal settings restores the
    terminal right after clearing the flag; it never joins the worker. *)
Lemma C2_counterexample :
  let l := Stdin.started (Some [0; 1; 2]) in
  Stdin.thread l = Some true
  ∧ snd (Stdin.stop l) = [SignalStop; RestoreTerminal [0; 1; 2]]
  ∧ ∀ t, JoinWorker t ∉ snd (Stdin.stop l).
Proof.
  cbn zeta. split; [reflexivity|]. split; [reflexivity|].
  intros t Hin. vm_compute in Hin.
  apply elem_of_cons in Hin as [Hin|Hin]; [discriminate|].
  apply elem_of_cons in Hin as [Hin|Hin]; [discriminate|].
  by apply elem_of_nil in Hin.
Qed.

(** C2 (amended).  HID engine: [stop()] clears [running], then joins the
    worker with a timeout of one second if a worker exists and is alive,
    and only then closes the device, whenever a device is stored and
    whatever state the loop was left in.  Terminal engine: [stop()] clears
    [running] and then restores the saved terminal mode, if any was saved,
    without joining the worker. *)
Theorem C2_stop_order :
  (∀ l : HID.HIDListener,
     HID.running (fst (HID.stop l)) = false
     ∧ snd (HID.stop l) =
         [SignalStop]
           ++ (if bool_decide (HID.thread l = Some true) then [JoinWorker 1000000] else [])
           ++ (match HID.dev l with Some h => [CloseDevice h] | None => [] end)
     ∧ (∀ h, HID.dev l = Some h → HID.thread l = Some true →
             snd (HID.stop l) = [SignalStop; JoinWorker 1000000; CloseDevice h]))
  ∧ (∀ l : Stdin.StdinListener,
       Stdin.running (fst (Stdin.stop l)) = false
       ∧ snd (Stdin.stop l) =
           [SignalStop]
             ++ (match Stdin.old_settings l with
                 | Some (x :: s) => [RestoreTerminal (x :: s)]
                 | _ => []
                 end)
       ∧ (∀ t, JoinWorker t ∉ snd (Stdin.stop l))).
Proof.
  split.
  - intros l. split; [reflexivity|].
    assert (Hgen : snd (HID.stop l) =
         [SignalStop]
           ++ (if bool_decide (HID.thread l = Some true) then [JoinWorker 1000000] else [])
           ++ (match HID.dev l with Some h => [CloseDevice h] | None => [] end)).
    { unfold HID.stop. cbn [snd HID.set_running HID.thread HID.dev].
      destruct (HID.thread l) as [[|]|], (HID.dev l); reflexivity. }
    split; [exact Hgen|].
    intros h Hd Ht. rewrite Hgen, Hd, Ht. reflexivity.
  - intros l. split; [reflexivity|].
    assert (Hgen : snd (Stdin.stop l) =
           [SignalStop]
             ++ (match Stdin.old_settings l with
                 | Some (x :: s) => [RestoreTerminal (x :: s)]
                 | _ => []
                 end)).
    { unfold Stdin.stop. cbn [snd Stdin.set_running Stdin.old_settings].
      destruct (Stdin.old_settings l) as [[|x s]|]; reflexivity. }
    split; [exact Hgen|].
    intros t. rewrite Hgen.
    destruct (Stdin.old_settings l) as [[|x s]|]; simpl;
      rewrite ?elem_of_cons, elem_of_nil; intros H; decompose [or] H;
      first [discriminate | contradiction].
Qed.

(** [stop()] on a HID engine whose loop has stopped itself at the error
    ceiling still joins and closes. *)
Lemma C2_stop_order_witness :
  let h := ByPath "/dev/hidraw0" in
  let s := HID._run elements_iter (replicate 10 (HID.Read HID.ReadError)) (HID.started h) in
  HID.running (HID.self s) = false
  ∧ snd (HID.stop (HID.self s)) = [SignalStop; JoinWorker 1000000; CloseDevice h].
Proof.
  cbn zeta. split; [vm_compute; reflexivity|].
  apply (proj2 (proj2 (proj1 C2_stop_order _)) (ByPath "/dev/hidraw0"));
    vm_compute; reflexivity.
Defined.

End claim_C2.

(** ** C5: device discovery *)

Section claim_C5.
Import HID.

Lemma is_keyboard_signals d :
  is_keyboard d = signal_usage d || signal_name d || signal_interface d.
Proof.
  unfold is_keyboard, signal_usage, signal_name, signal_interface.
  destruct (opt_eqb (usage_page d) 1 && opt_eqb (usage d) 6),
           (contains "keyboard" (lower (_s (product_string d)))
            || contains "keyboard" (lower (_s (manufacturer_string d)))),
           ((opt_eqb (interface_number d) 0 || opt_eqb (interface_number d) 1)
            && (contains "logitech" (lower (_s (manufacturer_string d)))
                || contains "key" (lower (_s (product_string d)))));
    reflexivity.
Qed.

Lemma candidates_filter ds :
  candidates ds =
  candidate_of <$> filter (λ d, is_keyboard d && opt_truthy_str (path d) = true) ds.
Proof.
  induction ds as [|d ds IH]; [done|]. simpl. rewrite filter_cons.
  destruct (is_keyboard d && opt_truthy_str (path d)) eqn:E.
  - rewrite decide_True by done. simpl. by rewrite IH.
  - rewrite decide_False by done. exact IH.
Qed.

Lemma elem_of_candidates c ds :
  c ∈ candidates ds ↔
  ∃ d, d ∈ ds ∧ is_keyboard d = true ∧ opt_truthy_str (path d) = true
       ∧ c = candidate_of d.
Proof.
  rewrite candidates_filter, list_elem_of_fmap. split.
  - intros (d & -> & Hd). apply list_elem_of_filter in Hd as [Hk Hd].
    apply andb_true_iff in Hk as [Hk Hp]. eauto.
  - intros (d & Hd & Hk & Hp & ->). exists d. split; [done|].
    apply list_elem_of_filter. split; [|done]. by rewrite Hk, Hp.
Qed.

Lemma try_candidates_tried env cs : ∀ tried p,
  p ∈ snd (try_candidates env cs tried) →
  p ∈ tried ∨ ∃ c, c ∈ cs ∧ p = _s (path c).
Proof.
  induction cs as [|c cs IH]; intros tried p; simpl; [by left|].
  assert (Hhere : p ∈ tried ++ [_s (path c)] →
                  p ∈ tried ∨ ∃ c', c' ∈ c :: cs ∧ p = _s (path c')).
  { intros [H|H]%elem_of_app; [by left|]. apply list_elem_of_singleton in H.
    right. exists c. split; [left|done]. }
  destruct (open_path env (_s (path c))); simpl; try exact Hhere.
  - intros H. apply IH in H as [H|(c' & Hc' & ->)]; [by apply Hhere|].
    right. exists c'. split; [by right|done].
  - intros H. apply IH in H as [H|(c' & Hc' & ->)]; [by apply Hhere|].
    right. exists c'. split; [by right|done].
Qed.

Lemma try_candidates_none env cs : ∀ tried,
  (∀ c, c ∈ cs → open_path env (_s (path c)) ≠ Opens) →
  fst (try_candidates env cs tried) = inl NoSuitableDevice.
Proof.
  induction cs as [|c cs IH]; intros tried Hall; simpl; [done|].
  pose proof (Hall c ltac:(left)) as Hc.
  destruct (open_path env (_s (path c))); [| |done];
    apply IH; intros c' Hc'; apply Hall; by right.
Qed.

Lemma open_discovery cfg env :
  hid_available env = true → discovery cfg →
  _open cfg env = try_candidates env (candidates (enumerate env)) [].
Proof.
  intros Ha [Hp Hids]. unfold _open. rewrite Ha. simpl negb. cbn iota.
  rewrite Hids.
  destruct (cfg_device_path cfg) as [p|]; [|done].
  simpl in Hp. by rewrite Hp.
Qed.

Lemma candidate_path d : path (candidate_of d) = path d.
Proof. done. Qed.

(** C5, as stated, fails in two ways.  Candidates are tried in enumeration
    order, not by strength of the signal: when the descriptor matched only
    by its product string is enumerated before the one with the keyboard
    usage page, and every device opens, the former is accepted.  And a
    descriptor with the keyboard usage page but without a path is not a
    candidate. *)
Lemma C5_counterexample :
  let env := mkEnv true [kbd_by_name; kbd_by_usage; not_a_kbd] (λ _, Opens) (λ _ _, true) in
  let cfg := mkConfig None None None in
  signal_usage kbd_by_usage = true
  ∧ signal_usage kbd_by_name = false ∧ signal_name kbd_by_name = true
  ∧ is_keyboard not_a_kbd = false
  ∧ _open cfg env = (inr (ByPath "/dev/hidraw0"), ["/dev/hidraw0"])
  ∧ signal_usage no_path_kbd = true
  ∧ candidates [no_path_kbd] = [].
Proof. cbn zeta. repeat split; vm_compute; reflexivity. Qed.

(** C5 (amended).  With the HID library present and neither a device path
    nor a vendor/product pair configured: an enumerated descriptor with a
    non-empty path is a candidate if its usage page is 1 and its usage is 6,
    and also if its product or manufacturer string contains "keyboard" in
    any letter case; the candidates are exactly the descriptors with a
    non-empty path and at least one of the three signals, in enumeration
    order, so a descriptor with none of the signals is never opened on its
    own account.  Candidates are opened in enumeration order: for the three
    descriptors of the scoring test, enumerated in the order usage page,
    product string, neither, the first is accepted if it opens, else the
    second if it opens, and the third is never tried.  If no candidate
    opens, [start()] fails with the no-device-found error. *)
Theorem C5_discovery (cfg : Config) (env : HidEnv) :
  hid_available env = true →
  discovery cfg →
  (∀ d, d ∈ enumerate env → opt_truthy_str (path d) = true →
        signal_usage d = true ∨ signal_name d = true →
        candidate_of d ∈ candidates (enumerate env))
  ∧ candidates (enumerate env) =
      candidate_of <$>
        filter (λ d, (signal_usage d || signal_name d || signal_interface d)
                     && opt_truthy_str (path d) = true) (enumerate env)
  ∧ (∀ p, p ∈ snd (_open cfg env) →
          ∃ d, d ∈ enumerate env ∧ path d = Some p
               ∧ (signal_usage d || signal_name d || signal_interface d) = true)
  ∧ (∀ d1 d2 d3 p1 p2,
       enumerate env = [d1; d2; d3] →
       signal_usage d1 = true → path d1 = Some p1 → str_truthy p1 = true →
       signal_name d2 = true → path d2 = Some p2 → str_truthy p2 = true →
       (signal_usage d3 || signal_name d3 || signal_interface d3) = false →
       _open cfg env =
         match open_path env p1, open_path env p2 with
         | Opens, _ => (inr (ByPath p1), [p1])
         | _, Opens => (inr (ByPath p2), [p1; p2])
         | _, _ => (inl NoSuitableDevice, [p1; p2])
         end)
  ∧ (∀ l, (∀ c, c ∈ candidates (enumerate env) → open_path env (_s (path c)) ≠ Opens) →
          start cfg env l = inl NoSuitableDevice).
Proof.
  intros Ha Hdisc. pose proof (open_discovery cfg env Ha Hdisc) as Hopen.
  split; [|split; [|split; [|split]]].
  - intros d Hd Hp Hsig. apply elem_of_candidates. exists d.
    split; [done|]. split; [|done]. rewrite is_keyboard_signals.
    destruct Hsig as [-> | ->]; [done|]. by rewrite orb_true_r.
  - rewrite candidates_filter. f_equal. apply list_filter_iff. intros d.
    by rewrite is_keyboard_signals.
  - intros p Hp. rewrite Hopen in Hp.
    apply try_candidates_tried in Hp as [Hp|(c & Hc & ->)]; [by apply elem_of_nil in Hp|].
    apply elem_of_candidates in Hc as (d & Hd & Hk & Hpath & ->).
    exists d. split; [done|]. rewrite candidate_path.
    rewrite is_keyboard_signals in Hk. split; [|done].
    destruct (path d); [done|discriminate].
  - intros d1 d2 d3 p1 p2 He H1 Hp1 Ht1 H2 Hp2 Ht2 H3.
    rewrite Hopen, He. cbn [candidates]. rewrite !is_keyboard_signals.
    rewrite H1, H2, H3, Hp1, Hp2. rewrite orb_true_r.
    cbn [orb andb opt_truthy_str]. rewrite Ht1, Ht2.
    cbn [try_candidates candidate_of path _s default app].
    unfold _s. rewrite ?Hp1, ?Hp2. simpl default.
    destruct (open_path env p1), (open_path env p2); reflexivity.
  - intros l Hnone. unfold start. rewrite Hopen.
    by rewrite try_candidates_none.
Qed.

(** The scoring test in its own order: the usage-page keyboard opens and is
    accepted; the mouse is never tried. *)
Lemma C5_discovery_witness :
  let env := mkEnv true [kbd_by_usage; kbd_by_name; not_a_kbd] (λ _, Opens) (λ _ _, true) in
  let cfg := mkConfig None None None in
  _open cfg env = (inr (ByPath "/dev/hidraw1"), ["/dev/hidraw1"]).
Proof.
  cbn zeta.
  destruct (C5_discovery (mkConfig None None None)
              (mkEnv true [kbd_by_usage; kbd_by_name; not_a_kbd] (λ _, Opens) (λ _ _, true)))
    as (_ & _ & _ & H & _).
  - reflexivity.
  - split; reflexivity.
  - exact (H kbd_by_usage kbd_by_name not_a_kbd "/dev/hidraw1" "/dev/hidraw0"
             eq_refl eq_refl eq_refl eq_refl eq_refl eq_refl eq_refl eq_refl).
Defined.

End claim_C5.

(** ** C8: the relay sender *)

Section claim_C8.
Import Proxy.

(** C8.  A new sender holds no connection and has touched no socket.
    [send] never raises.  Without a connection it first tries to connect;
    if that fails the event is dropped: nothing is sent, the sender stays
    disconnected.  If [sendall] fails, the socket is closed (an error of
    [close] is swallowed), the connection is dropped and no connect is
    attempted in that call; the following call, finding no connection,
    starts with a connect.  A successful send leaves the connection in
    place. *)
Theorem C8_sender_lazy_connect_drop_on_failure
    (key : string) (is_down : bool) (ts : Z) (w : World) :
  let m := mkMsg key is_down ts in
  let c := next_conn w in
  (∀ script, sock (init script) = None ∧ ops (init script) = [])
  ∧ (∃ w', send key is_down ts w = (inr tt, w'))
  ∧ (sock w = None → outcome 0 w = false →
       ∃ w', send key is_down ts w = (inr tt, w')
             ∧ sock w' = None
             ∧ ops w' = ops w ++ [OpConnect c false]
             ∧ script w' = drop 1 (script w))
  ∧ (sock w = None → outcome 0 w = true → outcome 1 w = true →
       ∃ w', send key is_down ts w = (inr tt, w')
             ∧ sock w' = Some c
             ∧ ops w' = ops w ++ [OpConnect c true; OpSendAll c m true]
             ∧ script w' = drop 2 (script w))
  ∧ (sock w = None → outcome 0 w = true → outcome 1 w = false →
       ∃ w', send key is_down ts w = (inr tt, w')
             ∧ sock w' = None
             ∧ ops w' = ops w ++ [OpConnect c true; OpSendAll c m false;
                                  OpClose c (outcome 2 w)]
             ∧ script w' = drop 3 (script w))
  ∧ (∀ c0, sock w = Some c0 → outcome 0 w = true →
       ∃ w', send key is_down ts w = (inr tt, w')
             ∧ sock w' = Some c0
             ∧ ops w' = ops w ++ [OpSendAll c0 m true]
             ∧ script w' = drop 1 (script w))
  ∧ (∀ c0, sock w = Some c0 → outcome 0 w = false →
       ∃ w', send key is_down ts w = (inr tt, w')
             ∧ sock w' = None
             ∧ ops w' = ops w ++ [OpSendAll c0 m false; OpClose c0 (outcome 1 w)]
             ∧ script w' = drop 2 (script w)).
Proof.
  intros m c. subst m c. destruct w as [s scr n o]. unfold outcome.
  cbn [sock script next_conn ops].
  split; [done|].
  split.
  { destruct s as [c0|]; destruct scr as [|[|] [|[|] [|[|] r]]]; eexists; cbv; reflexivity. }
  split.
  { intros -> H0. destruct scr as [|[|] r]; try discriminate; run_send. }
  split.
  { intros -> H0 H1. destruct scr as [|[|] [|[|] r]]; try discriminate; run_send. }
  split.
  { intros -> H0 H1.
    destruct scr as [|[|] [|[|] [|[|] r]]]; try discriminate; run_send. }
  split.
  { intros c0 -> H0. destruct scr as [|[|] r]; try discriminate; run_send. }
  { intros c0 -> H0. destruct scr as [|[|] [|[|] r]]; try discriminate; run_send. }
Qed.

(** The sender at its first event (connect, then deliver), and at an event
    whose [sendall] fails on an open connection (close, drop, no
    reconnect). *)
Lemma C8_sender_lazy_connect_drop_on_failure_witness :
  (∃ w', send "left" true 1 (init [true; true]) = (inr tt, w')
         ∧ sock w' = Some 0%nat
         ∧ ops w' = [OpConnect 0 true; OpSendAll 0 (mkMsg "left" true 1) true])
  ∧ (∃ w', send "left" false 2 (mkWorld (Some 0%nat) [false; true; true] 1 []) = (inr tt, w')
           ∧ sock w' = None
           ∧ ops w' = [OpSendAll 0 (mkMsg "left" false 2) false; OpClose 0 true]
           ∧ script w' = [true]).
Proof.
  split.
  - destruct (C8_sender_lazy_connect_drop_on_failure "left" true 1 (init [true; true]))
      as (_ & _ & _ & H & _).
    destruct H as (w' & E & Hs & Ho & _); [reflexivity..|].
    exists w'. split; [exact E|]. split; [exact Hs|exact Ho].
  - destruct (C8_sender_lazy_connect_drop_on_failure "left" false 2
                (mkWorld (Some 0%nat) [false; true; true] 1 []))
      as (_ & _ & _ & _ & _ & _ & H).
    destruct (H 0%nat) as (w' & E & Hs & Ho & Hc); [reflexivity..|].
    exists w'. split; [exact E|]. split; [exact Hs|]. split; [exact Ho|exact Hc].
Defined.

End claim_C8.

(** ** C9: the terminal-to-socket bridge *)

Section claim_C9.
Import Proxy.

Lemma send_never_raises key is_down ts w :
  send key is_down ts w = (inr tt, snd (send key is_down ts w)).
Proof.
  destruct w as [s scr n o].
  destruct s as [c0|]; destruct scr as [|[|] [|[|] [|[|] r]]]; reflexivity.
Qed.

Lemma list_ascii_eqb_eq a : ∀ b, list_ascii_eqb a b = true ↔ a = b.
Proof.
  induction a as [|x a IH]; intros [|y b]; simpl; try (split; done).
  rewrite andb_true_iff, IH, Ascii.eqb_eq. split.
  - by intros [-> ->].
  - by intros [= -> ->].
Qed.

Lemma endswith_last buf seq x :
  endswith buf seq = true → last seq = Some x → last buf = Some x.
Proof.
  unfold endswith. rewrite andb_true_iff, list_ascii_eqb_eq.
  intros [_ Hd] Hl.
  rewrite <- (take_drop (length buf - length seq) buf), Hd.
  rewrite last_app, Hl. done.
Qed.

(** A buffer that does not end in one of the final bytes matches no
    sequence of the table. *)
Lemma match_sequences_none buf b t_down t_up w :
  Stdin.is_final_byte b = false →
  match_sequences ESC_SEQ_MAP (buf ++ [b]) t_down t_up w = (inr (buf ++ [b]), w).
Proof.
  intros Hb. cbn [match_sequences ESC_SEQ_MAP].
  assert (Hno : ∀ seq x, last seq = Some x → Stdin.is_final_byte x = true →
                         endswith (buf ++ [b]) seq = false).
  { intros seq x Hl Hx. destruct (endswith (buf ++ [b]) seq) eqn:E; [|done].
    apply (endswith_last _ _ x) in E; [|done].
    rewrite last_snoc in E. injection E as ->. congruence. }
  rewrite (Hno _ "A"%char), (Hno _ "B"%char), (Hno _ "C"%char), (Hno _ "D"%char);
    done.
Qed.

(** A buffer that ends in a sequence of the table matches exactly that
    entry: both events are sent, down first, and the buffer is emptied. *)
Lemma match_sequences_arrow buf b seq name t_down t_up w :
  (seq, name) ∈ ESC_SEQ_MAP →
  endswith (buf ++ [b]) seq = true →
  match_sequences ESC_SEQ_MAP (buf ++ [b]) t_down t_up w
  = (inr [], snd (send name false t_up (snd (send name true t_down w))))
  ∧ Stdin.is_final_byte b = true.
Proof.
  intros Hin He.
  assert (Hlast : ∀ seq' x, endswith (buf ++ [b]) seq' = true →
                            last seq' = Some x → b = x).
  { intros seq' x E Hl. apply (endswith_last _ _ x) in E; [|done].
    rewrite last_snoc in E. by injection E. }
  assert (Hsend : ∀ name',
    (send name' true t_down ≫= λ _, send name' false t_up ≫= λ _, ret []) w
    = (inr ([] : list ascii),
       snd (send name' false t_up (snd (send name' true t_down w))))).
  { intros name'. unfold mbind, M_bind, bind.
    rewrite (send_never_raises name' true t_down w).
    cbn [snd]. rewrite (send_never_raises name' false t_up _). reflexivity. }
  cbn [match_sequences ESC_SEQ_MAP].
  unfold ESC_SEQ_MAP in Hin. rewrite !elem_of_cons, elem_of_nil in Hin.
  destruct Hin as [[= -> ->]|[[= -> ->]|[[= -> ->]|[[= -> ->]|[]]]]].
  - rewrite He. split; [apply Hsend|].
    by rewrite (Hlast _ "A"%char He eq_refl).
  - pose proof (Hlast _ "B"%char He eq_refl) as ->.
    destruct (endswith (buf ++ ["B"%char]) [Stdin.ESC; "["%char; "A"%char]) eqn:EA.
    { by apply (Hlast _ "A"%char) in EA. }
    rewrite He. split; [apply Hsend|done].
  - pose proof (Hlast _ "C"%char He eq_refl) as ->.
    destruct (endswith (buf ++ ["C"%char]) [Stdin.ESC; "["%char; "A"%char]) eqn:EA.
    { by apply (Hlast _ "A"%char) in EA. }
    destruct (endswith (buf ++ ["C"%char]) [Stdin.ESC; "["%char; "B"%char]) eqn:EB.
    { by apply (Hlast _ "B"%char) in EB. }
    rewrite He. split; [apply Hsend|done].
  - pose proof (Hlast _ "D"%char He eq_refl) as ->.
    destruct (endswith (buf ++ ["D"%char]) [Stdin.ESC; "["%char; "A"%char]) eqn:EA.
    { by apply (Hlast _ "A"%char) in EA. }
    destruct (endswith (buf ++ ["D"%char]) [Stdin.ESC; "["%char; "B"%char]) eqn:EB.
    { by apply (Hlast _ "B"%char) in EB. }
    destruct (endswith (buf ++ ["D"%char]) [Stdin.ESC; "["%char; "C"%char]) eqn:EC.
    { by apply (Hlast _ "C"%char) in EC. }
    rewrite He. split; [apply Hsend|done].
Qed.



End claim_C9.

(** * Further properties of the engines *)

(** ** The HID run loop, report by report *)

Section hid_reports.
Import HID.
Variable it : set_iter.

Lemma iter_empty : it ∅ = [].
Proof.
  apply Permutation_nil_r. rewrite (iter_perm it ∅). by rewrite elements_empty.
Qed.

Lemma foldl_press_events ts ks : ∀ l,
  event_queue (foldl (press ts) l ks)
  = event_queue l ++ ((λ k, mkEvent k true ts) <$> ks).
Proof.
  induction ks as [|k ks IH]; intros l; simpl; [by rewrite app_nil_r|].
  rewrite IH. simpl. by rewrite <- app_assoc.
Qed.

Lemma foldl_release_events ts ks : ∀ l,
  event_queue (foldl (release ts) l ks)
  = event_queue l ++ ((λ k, mkEvent k false ts) <$> ks).
Proof.
  induction ks as [|k ks IH]; intros l; simpl; [by rewrite app_nil_r|].
  rewrite IH. simpl. by rewrite <- app_assoc.
Qed.

(** The events one report adds: a down event for every direction newly
    present, then an up event for every direction newly absent. *)
Lemma process_report_events data ts s :
  event_queue (self (process_report it data ts s))
  = event_queue (self s)
      ++ ((λ k, mkEvent k true ts) <$> it (decode data ∖ prev_keys s))
      ++ ((λ k, mkEvent k false ts) <$> it (prev_keys s ∖ decode data)).
Proof.
  unfold process_report. cbn [self].
  by rewrite foldl_release_events, foldl_press_events, <- app_assoc.
Qed.

(** The loop on one input, when the engine is running. *)
Lemma hid_loop_one i s :
  running (self s) = true →
  loop it [i] s =
    match i with
    | ExternalStop =>
        mkRun (set_running false (self s)) (prev_keys s) (error_count s) (slept s)
    | Read o => fst (body it o s)
    end.
Proof.
  intros Hr. simpl. rewrite Hr. destruct i as [o|]; [|done].
  by destruct (body it o s) as [s' [|]].
Qed.

Lemma process_report_same_keys data ts s :
  decode data = prev_keys s →
  self (process_report it data ts s) = self s.
Proof.
  intros Hk. unfold process_report. cbn [self]. rewrite Hk.
  rewrite difference_diag_L, iter_empty. reflexivity.
Qed.

End hid_reports.

Section hid_extras.
Import HID.
Variable it : set_iter.

Lemma run_snoc inputs i h :
  _run it (inputs ++ [i]) (started h) = loop it [i] (_run it inputs (started h)).
Proof. unfold _run. apply hid_loop_app. Qed.

(** X1.  After a non-empty report has been processed, the key-state table
    is the decoded report: a key name is pressed exactly when the report
    holds its usage code in one of the two windows.  A report without arrow
    codes therefore releases every direction. *)
Theorem X1_hid_table_is_latest_report pre h b data ts d :
  running (self (_run it pre (started h))) = true →
  is_pressed
    (key_states (self (_run it (pre ++ [Read (ReadData (b :: data) ts)]) (started h)))) d
  = bool_decide (d ∈ decode (b :: data)).
Proof.
  intros Hr.
  destruct (hid_inv_run it (pre ++ [Read (ReadData (b :: data) ts)]) h d)
    as (_ & Hp & Hdir & Hnd & _).
  assert (Hk : prev_keys (_run it (pre ++ [Read (ReadData (b :: data) ts)]) (started h))
               = decode (b :: data)).
  { rewrite run_snoc, hid_loop_one by done. reflexivity. }
  rewrite Hk in Hp, Hdir. unfold is_pressed.
  destruct (decide (is_direction d)) as [Hd|Hd].
  - by destruct (Hdir Hd) as [-> _].
  - destruct (Hnd Hd) as [-> _]. simpl. symmetry.
    apply bool_decide_eq_false_2. tauto.
Qed.

(** X2.  A key that is held produces nothing new: when a report decodes to
    the same directions as the non-empty report before it (or is empty),
    the listener object, with its queue, key states and press times, is
    left exactly as it was. *)
Theorem X2_hid_repeated_report_is_silent pre h b data data' t1 t2 :
  data' = [] ∨ decode data' = decode (b :: data) →
  self (_run it (pre ++ [Read (ReadData (b :: data) t1); Read (ReadData data' t2)])
             (started h))
  = self (_run it (pre ++ [Read (ReadData (b :: data) t1)]) (started h)).
Proof.
  intros Hsame.
  replace (pre ++ [Read (ReadData (b :: data) t1); Read (ReadData data' t2)])
    with ((pre ++ [Read (ReadData (b :: data) t1)]) ++ [Read (ReadData data' t2)])
    by (by rewrite <- app_assoc).
  rewrite (run_snoc (pre ++ [_])).
  set (s1 := _run it (pre ++ [Read (ReadData (b :: data) t1)]) (started h)).
  destruct (running (self s1)) eqn:Hr1; [|by rewrite hid_loop_stopped].
  rewrite hid_loop_one by done. cbn [body].
  destruct data' as [|b' data']; [done|].
  destruct Hsame as [?|Hsame]; [done|]. cbn [fst].
  apply process_report_same_keys. rewrite Hsame.
  unfold s1. rewrite run_snoc.
  destruct (running (self (_run it pre (started h)))) eqn:Hr0.
  - by rewrite hid_loop_one.
  - exfalso. unfold s1 in Hr1. rewrite run_snoc, hid_loop_stopped in Hr1 by done.
    congruence.
Qed.

End hid_extras.

(** "up" goes down at time 5; a report of zeros at time 9 releases it. *)
Lemma X1_hid_table_is_latest_report_witness :
  is_pressed
    (HID.key_states (HID.self (HID._run elements_iter
       ([HID.Read (HID.ReadData [0; 0; 0x52] 5)]
          ++ [HID.Read (HID.ReadData [0; 0; 0; 0; 0; 0; 0; 0] 9)])
       (HID.started (ByPath "/dev/hidraw0"))))) "up"
  = false.
Proof.
  rewrite (X1_hid_table_is_latest_report elements_iter
             [HID.Read (HID.ReadData [0; 0; 0x52] 5)] (ByPath "/dev/hidraw0")
             0 [0; 0; 0; 0; 0; 0; 0] 9 "up"); vm_compute; reflexivity.
Defined.

(** "left" is held over two reports; the second differs only in the
    modifier byte. *)
Lemma X2_hid_repeated_report_is_silent_witness :
  HID.event_queue
    (HID.self (HID._run elements_iter
       ([] ++ [HID.Read (HID.ReadData [0; 0; 0x50] 3);
               HID.Read (HID.ReadData [2; 0; 0x50; 0] 8)])
       (HID.started (ByPath "/dev/hidraw0"))))
  = [mkEvent "left" true 3].
Proof.
  rewrite (X2_hid_repeated_report_is_silent elements_iter [] (ByPath "/dev/hidraw0")
             0 [0; 0x50] [2; 0; 0x50; 0] 3 8).
  - vm_compute. reflexivity.
  - right. vm_compute. reflexivity.
Defined.

Section hid_order_and_stop.
Import HID.
Variable it : set_iter.

Lemma constant_sorted (ks : list string) (f : string → KeyEvent) ts :
  (∀ k, ev_ts (f k) = ts) → StronglySorted Z.le (ev_ts <$> (f <$> ks)).
Proof.
  intros Hf. induction ks as [|k ks IH]; [constructor|].
  simpl. constructor; [done|].
  rewrite <- list_fmap_compose. apply Forall_fmap, Forall_forall.
  intros k' _. simpl. rewrite !Hf. lia.
Qed.

(** The queue after the loop stays sorted when it was sorted, bounded by
    [lb], and every reading still to come is at least [lb]. *)
Lemma loop_timestamps_sorted inputs : ∀ s lb,
  StronglySorted Z.le (ev_ts <$> event_queue (self s)) →
  Forall (λ t, t ≤ lb) (ev_ts <$> event_queue (self s)) →
  Forall (λ t, lb ≤ t) (report_times inputs) →
  StronglySorted Z.le (report_times inputs) →
  StronglySorted Z.le (ev_ts <$> event_queue (self (loop it inputs s))).
Proof.
  induction inputs as [|i inputs IH]; intros s lb Hs Hlb Hfut Hsort; simpl; [done|].
  destruct (running (self s)); [|done].
  destruct i as [[data ts|stopping|]|].
  - destruct data as [|b data].
    + cbn [body]. by apply (IH _ lb).
    + cbn [body]. simpl in Hfut, Hsort.
      apply Forall_cons in Hfut as [Hts Hfut].
      apply StronglySorted_cons in Hsort as [Hrest Hsort].
      apply (IH _ ts); [| |done|done]; rewrite process_report_events, !fmap_app.
      * apply StronglySorted_app_2; [|done|].
        -- intros x1 x2 H1 H2.
           apply (proj1 (Forall_forall _ _) Hlb) in H1.
           assert (x2 = ts); [|lia].
           apply elem_of_app in H2 as [H2|H2];
             apply list_elem_of_fmap in H2 as (e & -> & He);
             apply list_elem_of_fmap in He as (k & -> & _); done.
        -- apply StronglySorted_app_2; [|by apply (constant_sorted _ _ ts)..].
           intros x1 x2 H1 H2.
           apply list_elem_of_fmap in H1 as (e1 & -> & He1).
           apply list_elem_of_fmap in He1 as (k1 & -> & _).
           apply list_elem_of_fmap in H2 as (e2 & -> & He2).
           apply list_elem_of_fmap in He2 as (k2 & -> & _). simpl. lia.
      * apply Forall_app. split; [|apply Forall_app; split].
        -- eapply Forall_impl; [exact Hlb|]. simpl. intros; lia.
        -- rewrite <- list_fmap_compose. apply Forall_fmap, Forall_forall.
           intros; simpl; lia.
        -- rewrite <- list_fmap_compose. apply Forall_fmap, Forall_forall.
           intros; simpl; lia.
  - destruct stopping; cbn [body]; [done|].
    unfold count_error. destruct (_ >=? _)%Z; [done|]. by apply (IH _ lb).
  - cbn [body]. unfold count_error. destruct (_ >=? _)%Z; [done|]. by apply (IH _ lb).
  - by apply (IH _ lb).
Qed.

(** X3.  If the clock readings taken for successive non-empty reports never
    go back, the timestamps in the queue never go back either: the queue
    lists the events in the order of their timestamps. *)
Theorem X3_hid_queue_in_timestamp_order inputs h :
  StronglySorted Z.le (report_times inputs) →
  StronglySorted Z.le (ev_ts <$> event_queue (self (_run it inputs (started h)))).
Proof.
  intros Hsort. unfold _run.
  destruct (report_times inputs) as [|t0 ts] eqn:E.
  - apply (loop_timestamps_sorted inputs _ 0); rewrite ?E; by constructor.
  - apply (loop_timestamps_sorted inputs _ t0); rewrite ?E.
    + constructor.
    + constructor.
    + apply StronglySorted_cons in Hsort as [Hrest _].
      constructor; [lia|done].
    + done.
Qed.

(** X4.  Once the loop has met a stop request ([stop()] between two
    iterations, or an [OSError] of a read during which [stop()] was
    called), the engine is no longer running and nothing that arrives
    later is processed: the state, with its queue and tables, stays as it
    is. *)
Theorem X4_hid_nothing_after_stop pre i more h :
  is_stop_request i →
  running (self (_run it (pre ++ [i]) (started h))) = false
  ∧ _run it (pre ++ i :: more) (started h) = _run it (pre ++ [i]) (started h).
Proof.
  intros Hi.
  assert (Hstop : running (self (_run it (pre ++ [i]) (started h))) = false).
  { rewrite run_snoc.
    destruct (running (self (_run it pre (started h)))) eqn:Hr.
    - rewrite hid_loop_one by done. by destruct Hi as [-> | ->].
    - by rewrite hid_loop_stopped. }
  split; [done|].
  replace (pre ++ i :: more) with ((pre ++ [i]) ++ more) by (by rewrite <- app_assoc).
  unfold _run at 1. rewrite hid_loop_app. fold (_run it (pre ++ [i]) (started h)).
  by apply hid_loop_stopped.
Qed.

Lemma loop_running_or_ceiling inputs : ∀ s,
  Forall (λ i, ¬ is_stop_request i) inputs →
  (running (self s) = true ∧ error_count s < max_errors)
  ∨ (running (self s) = false ∧ error_count s = max_errors) →
  (running (self (loop it inputs s)) = true
   ∧ error_count (loop it inputs s) < max_errors)
  ∨ (running (self (loop it inputs s)) = false
     ∧ error_count (loop it inputs s) = max_errors).
Proof.
  induction inputs as [|i inputs IH]; intros s Hall Hs; simpl; [done|].
  apply Forall_cons in Hall as [Hi Hall].
  destruct (running (self s)) eqn:Hr; [|cbn iota; rewrite ?Hr; exact Hs].
  destruct Hs as [[_ Hlt]|[? _]]; [|done].
  destruct i as [[data ts|stopping|]|].
  - destruct data as [|b data]; cbn [body]; apply IH; try done; left.
    + done.
    + destruct (process_report_direction it (b :: data) ts s "up")
        as (_ & _ & _ & _ & _ & -> & _ & -> & _).
      unfold max_errors. split; [done|lia].
  - destruct stopping; [exfalso; apply Hi; by right|]. cbn [body].
    unfold count_error.
    destruct (Z.geb_spec (error_count s + 1) max_errors) as [Hge|Hlt'].
    + right. cbn [self error_count set_running running]. split; [done|lia].
    + apply IH; [done|]. left. cbn [self error_count]. done.
  - cbn [body]. unfold count_error.
    destruct (Z.geb_spec (error_count s + 1) max_errors) as [Hge|Hlt'].
    + right. cbn [self error_count set_running running]. split; [done|lia].
    + apply IH; [done|]. left. cbn [self error_count]. done.
  - exfalso. apply Hi. by left.
Qed.

(** X5.  The loop ends by itself only at the error ceiling: if no stop
    request is among the inputs and the engine is found not running, the
    error counter stands at [max_errors]; while it is running the counter
    is below it. *)
Theorem X5_hid_self_stop_only_at_ceiling inputs h :
  Forall (λ i, ¬ is_stop_request i) inputs →
  running (self (_run it inputs (started h))) = false →
  error_count (_run it inputs (started h)) = max_errors.
Proof.
  intros Hall Hstop.
  destruct (loop_running_or_ceiling inputs (mkRun (started h) ∅ 0 []) Hall)
    as [[Hr _]|[_ He]].
  - left. split; [done|]. unfold max_errors. cbn [error_count]. lia.
  - unfold _run in Hstop. congruence.
  - exact He.
Qed.

End hid_order_and_stop.

(** Reports at times 5, 5 and 9, with an empty read between them. *)
Lemma X3_hid_queue_in_timestamp_order_witness :
  StronglySorted Z.le
    (ev_ts <$> HID.event_queue (HID.self (HID._run elements_iter
       [HID.Read (HID.ReadData [0; 0; 0x52] 5); HID.Read (HID.ReadData [] 0);
        HID.Read (HID.ReadData [0; 0; 0x52; 0x4F] 5); HID.Read (HID.ReadData [0; 0; 0] 9)]
       (HID.started (ByPath "/dev/hidraw0"))))).
Proof.
  apply X3_hid_queue_in_timestamp_order. simpl.
  repeat (constructor; [|repeat constructor; lia]). constructor.
Defined.

(** A stop between two reports: the second report leaves no trace. *)
Lemma X4_hid_nothing_after_stop_witness :
  HID.event_queue (HID.self (HID._run elements_iter
    ([HID.Read (HID.ReadData [0; 0; 0x52] 5)]
       ++ HID.ExternalStop :: [HID.Read (HID.ReadData [0; 0; 0x51] 9)])
    (HID.started (ByPath "/dev/hidraw0"))))
  = [mkEvent "up" true 5].
Proof.
  rewrite (proj2 (X4_hid_nothing_after_stop elements_iter
                    [HID.Read (HID.ReadData [0; 0; 0x52] 5)] HID.ExternalStop
                    [HID.Read (HID.ReadData [0; 0; 0x51] 9)] (ByPath "/dev/hidraw0")
                    (or_introl eq_refl))).
  vm_compute. reflexivity.
Defined.

(** Ten errors in a row: the engine is found stopped with the counter at
    the ceiling. *)
Lemma X5_hid_self_stop_only_at_ceiling_witness :
  HID.error_count (HID._run elements_iter (replicate 10 (HID.Read HID.ReadError))
                            (HID.started (ByPath "/dev/hidraw0")))
  = HID.max_errors.
Proof.
  apply X5_hid_self_stop_only_at_ceiling.
  - apply Forall_replicate. intros [H|H]; discriminate.
  - vm_compute. reflexivity.
Defined.

(** ** What reaches the queue *)

Section event_keys.

Lemma hid_loop_event_keys (it : set_iter) inputs : ∀ s,
  (∀ d, d ∈ HID.prev_keys s → is_direction d) →
  Forall (λ e, is_direction (ev_key e)) (HID.event_queue (HID.self s)) →
  Forall (λ e, is_direction (ev_key e))
         (HID.event_queue (HID.self (HID.loop it inputs s))).
Proof.
  induction inputs as [|i inputs IH]; intros s Hp Hq; simpl; [done|].
  destruct (HID.running (HID.self s)); [|done].
  destruct i as [[data ts|stopping|]|].
  - destruct data as [|b data]; cbn [HID.body]; [by apply IH|].
    apply IH.
    + intros d Hd. by apply (decode_direction d (b :: data)).
    + rewrite process_report_events. rewrite !Forall_app. split; [done|].
      split; apply Forall_fmap, Forall_forall; intros k Hk; simpl;
        apply elem_of_iter, elem_of_difference in Hk as [Hk _].
      * by apply (decode_direction k (b :: data)).
      * by apply Hp.
  - destruct stopping; cbn [HID.body]; [done|].
    unfold HID.count_error. destruct (_ >=? _)%Z; [done|]. by apply IH.
  - cbn [HID.body]. unfold HID.count_error. destruct (_ >=? _)%Z; [done|]. by apply IH.
  - by apply IH.
Qed.

Lemma stdin_loop_event_keys inputs : ∀ s,
  Forall (λ e, is_direction (ev_key e)) (Stdin.event_queue (Stdin.self s)) →
  Forall (λ e, is_direction (ev_key e))
         (Stdin.event_queue (Stdin.self (Stdin.loop inputs s))).
Proof.
  induction inputs as [|i inputs IH]; intros s Hq; simpl; [done|].
  destruct (Stdin.running (Stdin.self s)); [|done].
  assert (Hb : Forall (λ e, is_direction (ev_key e))
                 (Stdin.event_queue (Stdin.self (fst (Stdin.body i s))))).
  { destruct (body_self i s) as [-> | [-> | (ch & t1 & t2 & key & _ & Hk & ->)]];
      [done|done|].
    cbn [Stdin.press Stdin.event_queue]. apply Forall_app. split; [done|].
    by constructor. }
  destruct (Stdin.body i s) as [s' [|]]; simpl in Hb; [by apply IH|done].
Qed.

(** X6.  Whatever either engine is fed, every event in its queue names one
    of the four directions: no other key name is ever enqueued. *)
Theorem X6_events_name_directions :
  (∀ (it : set_iter) inputs h,
     Forall (λ e, is_direction (ev_key e))
            (HID.event_queue (HID.self (HID._run it inputs (HID.started h)))))
  ∧ (∀ inputs saved,
       Forall (λ e, is_direction (ev_key e))
              (Stdin.event_queue (Stdin.self (Stdin._run inputs (Stdin.started saved))))).
Proof.
  split.
  - intros it inputs h. apply hid_loop_event_keys; [|constructor].
    intros d Hd. by apply not_elem_of_empty in Hd.
  - intros inputs saved. apply stdin_loop_event_keys. constructor.
Qed.

End event_keys.

(** ** More on report decoding *)

Section decode_extras.
Import HID.

(** X7.  Decoding looks at the bytes at indices 2 to 8 only: two reports
    that agree there decode alike, whatever their modifier byte, their
    second byte and their bytes from index 9 on; a report of at most two
    bytes decodes to no direction. *)
Theorem X7_decode_reads_indices_2_to_8 (buf buf' : list Z) :
  ((∀ i : nat, (2 ≤ i ≤ 8)%nat → buf !! i = buf' !! i) → decode buf = decode buf')
  ∧ ((length buf ≤ 2)%nat → decode buf = ∅).
Proof.
  split.
  - intros Hsame. apply set_eq. intros d. rewrite !elem_of_decode.
    split; intros (o & i & u & Ho & Hr & Hi & Hu); exists o, i, u;
      (split; [done|]); (split; [done|]); (split; [|done]).
    + rewrite <- Hsame; [done|]. destruct Ho; lia.
    + rewrite Hsame; [done|]. destruct Ho; lia.
  - intros Hlen. apply set_eq. intros d. rewrite elem_of_decode. split.
    + intros (o & i & u & Ho & Hr & Hi & Hu).
      apply lookup_lt_Some in Hi. lia.
    + intros Hd. by apply not_elem_of_empty in Hd.
Qed.

Lemma X7_decode_reads_indices_2_to_8_witness :
  decode [0x05; 0x52; 0x51; 0; 0; 0; 0; 0; 0; 0x52; 0x50]
  = decode [0; 0; 0x51; 0; 0; 0; 0; 0; 0] ∧ decode [0x52; 0x52] = ∅.
Proof.
  split.
  - apply (proj1 (X7_decode_reads_indices_2_to_8 _ _)).
    intros i Hi. do 9 (destruct i as [|i]; [first [lia | reflexivity]|]). lia.
  - apply (proj2 (X7_decode_reads_indices_2_to_8 [0x52; 0x52] [])). simpl. lia.
Defined.

(** X8.  Both report layouts decode to the arrows among the key slots.  In
    a plain report (modifier byte, reserved byte, key slots) of up to seven
    slots, and in a report with a leading report-ID byte (ID, modifier, a
    reserved byte that is not an arrow code, up to six slots), a direction
    is decoded exactly when one of the slots holds its usage code. *)
Theorem X8_decode_both_layouts (slots : list Z) (d : string) :
  (∀ modifier reserved,
     (length slots ≤ 7)%nat →
     d ∈ decode ([modifier; reserved] ++ slots)
     ↔ ∃ u, u ∈ slots ∧ USAGE_ARROW_MAP !! u = Some d)
  ∧ (∀ report_id modifier reserved,
       (length slots ≤ 6)%nat →
       USAGE_ARROW_MAP !! reserved = None →
       d ∈ decode ([report_id; modifier; reserved] ++ slots)
       ↔ ∃ u, u ∈ slots ∧ USAGE_ARROW_MAP !! u = Some d).
Proof.
  split.
  - intros modifier reserved Hlen. rewrite elem_of_decode. split.
    + intros (o & i & u & Ho & Hr & Hi & Hu). exists u. split; [|done].
      destruct i as [|[|i]]; [destruct Ho; lia..|].
      simpl in Hi. by eapply list_elem_of_lookup_2.
    + intros (u & Hin & Hu). apply list_elem_of_lookup_1 in Hin as [i Hi].
      pose proof (lookup_lt_Some _ _ _ Hi) as Hlt.
      destruct (decide (i < 6)%nat).
      * exists 0%nat, (S (S i)), u. repeat split; auto; lia.
      * exists 1%nat, (S (S i)), u. repeat split; auto; lia.
  - intros report_id modifier reserved Hlen Hres. rewrite elem_of_decode. split.
    + intros (o & i & u & Ho & Hr & Hi & Hu). exists u. split; [|done].
      destruct i as [|[|[|i]]]; [destruct Ho; lia..| |].
      * simpl in Hi. injection Hi as ->. congruence.
      * simpl in Hi. by eapply list_elem_of_lookup_2.
    + intros (u & Hin & Hu). apply list_elem_of_lookup_1 in Hin as [i Hi].
      pose proof (lookup_lt_Some _ _ _ Hi) as Hlt.
      exists 1%nat, (S (S (S i))), u. repeat split; auto; lia.
Qed.

Lemma X8_decode_both_layouts_witness :
  "right" ∈ decode ([0x02; 0] ++ [0x04; 0x4F; 0; 0; 0; 0])
  ∧ "right" ∈ decode ([0x01; 0x02; 0] ++ [0x04; 0x4F; 0; 0; 0; 0]).
Proof.
  split.
  - apply (proj1 (X8_decode_both_layouts [0x04; 0x4F; 0; 0; 0; 0] "right") 0x02 0).
    + simpl. lia.
    + exists 0x4F. split; [right; left|reflexivity].
  - apply (proj2 (X8_decode_both_layouts [0x04; 0x4F; 0; 0; 0; 0] "right") 0x01 0x02 0).
    + simpl. lia.
    + reflexivity.
    + exists 0x4F. split; [right; left|reflexivity].
Defined.

End decode_extras.

(** ** More on device acquisition *)

Section open_extras.
Import HID.

(** X9.  Explicit configuration comes first and is final.  A configured
    device path that opens is returned at once: no probe read, no use of
    the vendor/product pair, no enumeration.  If the path is missing,
    empty or fails to open and a vendor/product pair with both ids
    non-zero is configured, the device is opened by ids, and when that
    fails the error is raised: the enumerated devices are not tried.  A
    pair with a zero or missing id counts as not configured, and discovery
    runs. *)
Theorem X9_open_explicit_configuration (cfg : Config) (env : HidEnv) :
  hid_available env = true →
  (∀ p, cfg_device_path cfg = Some p → str_truthy p = true →
        open_path env p ≠ OpenRaises →
        _open cfg env = (inr (ByPath p), [p]))
  ∧ (∀ vid pid,
       cfg_vid cfg = Some vid → cfg_pid cfg = Some pid → vid ≠ 0 → pid ≠ 0 →
       (∀ p, cfg_device_path cfg = Some p → str_truthy p = true →
             open_path env p = OpenRaises) →
       fst (_open cfg env)
         = (if open_ids env vid pid then inr (ByIds vid pid) else inl OpenByIdsFailed)
       ∧ snd (_open cfg env)
         = (if opt_truthy_str (cfg_device_path cfg)
            then [default "" (cfg_device_path cfg)] else []))
  ∧ (opt_truthy_str (cfg_device_path cfg) = false →
     opt_truthy_int (cfg_vid cfg) = false ∨ opt_truthy_int (cfg_pid cfg) = false →
     _open cfg env = try_candidates env (candidates (enumerate env)) []).
Proof.
  intros Ha. unfold _open. rewrite Ha. cbn [negb]. split; [|split].
  - intros p Hp Ht Hopen. rewrite Hp, Ht.
    by destruct (open_path env p).
  - intros vid pid Hv Hpid Hvn Hpn Hfail. rewrite Hv, Hpid. cbn [opt_truthy_int default].
    rewrite (proj2 (Z.eqb_neq vid 0) Hvn), (proj2 (Z.eqb_neq pid 0) Hpn). cbn [negb andb].
    destruct (cfg_device_path cfg) as [p|]; simpl.
    + destruct (str_truthy p) eqn:Ht.
      * rewrite (Hfail p eq_refl Ht). by destruct (open_ids env vid pid).
      * by destruct (open_ids env vid pid).
    + by destruct (open_ids env vid pid).
  - intros Hp Hids.
    assert (Hand : opt_truthy_int (cfg_vid cfg) && opt_truthy_int (cfg_pid cfg) = false).
    { destruct Hids as [-> | ->]; [done|by rewrite andb_false_r]. }
    rewrite Hand. destruct (cfg_device_path cfg) as [p|]; [|done].
    simpl in Hp. by rewrite Hp.
Qed.

Lemma try_candidates_first_openable env cs : ∀ tried,
  match try_candidates env cs tried with
  | (inr h, tried') =>
      ∃ pre c post,
        cs = pre ++ c :: post
        ∧ h = ByPath (_s (path c))
        ∧ open_path env (_s (path c)) = Opens
        ∧ Forall (λ c', open_path env (_s (path c')) ≠ Opens) pre
        ∧ tried' = tried ++ ((λ c', _s (path c')) <$> pre) ++ [_s (path c)]
  | (inl e, tried') =>
      e = NoSuitableDevice
      ∧ Forall (λ c', open_path env (_s (path c')) ≠ Opens) cs
      ∧ tried' = tried ++ ((λ c', _s (path c')) <$> cs)
  end.
Proof.
  induction cs as [|c cs IH]; intros tried; cbn [try_candidates].
  - split; [done|]. split; [constructor|]. by rewrite app_nil_r.
  - destruct (open_path env (_s (path c))) eqn:Ho.
    + specialize (IH (tried ++ [_s (path c)])).
      destruct (try_candidates env cs (tried ++ [_s (path c)])) as [[e|h] tried'].
      * destruct IH as (-> & Hall & ->). split; [done|].
        split; [constructor; [congruence|done]|]. by rewrite <- app_assoc.
      * destruct IH as (pre & c' & post & -> & -> & Hopen & Hall & ->).
        exists (c :: pre), c', post.
        split; [done|]. split; [done|]. split; [done|].
        split; [constructor; [congruence|done]|]. by rewrite <- app_assoc.
    + specialize (IH (tried ++ [_s (path c)])).
      destruct (try_candidates env cs (tried ++ [_s (path c)])) as [[e|h] tried'].
      * destruct IH as (-> & Hall & ->). split; [done|].
        split; [constructor; [congruence|done]|]. by rewrite <- app_assoc.
      * destruct IH as (pre & c' & post & -> & -> & Hopen & Hall & ->).
        exists (c :: pre), c', post.
        split; [done|]. split; [done|]. split; [done|].
        split; [constructor; [congruence|done]|]. by rewrite <- app_assoc.
    + exists [], c, cs.
      split; [done|]. split; [done|]. split; [done|]. split; [constructor|done].
Qed.

(** X10.  Discovery returns the first candidate, in enumeration order,
    whose open and probe both succeed; every candidate before it was
    opened and given up, none after it is touched.  It fails, with the
    no-device-found error, exactly when every candidate has been tried and
    none opened. *)
Theorem X10_discovery_first_openable (cfg : Config) (env : HidEnv) :
  hid_available env = true →
  discovery cfg →
  match _open cfg env with
  | (inr h, tried) =>
      ∃ pre c post,
        candidates (enumerate env) = pre ++ c :: post
        ∧ h = ByPath (_s (path c))
        ∧ open_path env (_s (path c)) = Opens
        ∧ Forall (λ c', open_path env (_s (path c')) ≠ Opens) pre
        ∧ tried = ((λ c', _s (path c')) <$> pre) ++ [_s (path c)]
  | (inl e, tried) =>
      e = NoSuitableDevice
      ∧ Forall (λ c', open_path env (_s (path c')) ≠ Opens) (candidates (enumerate env))
      ∧ tried = (λ c', _s (path c')) <$> candidates (enumerate env)
  end.
Proof.
  intros Ha Hd. rewrite (open_discovery cfg env Ha Hd).
  apply (try_candidates_first_openable env (candidates (enumerate env)) []).
Qed.

End open_extras.

(** A configured path that opens although its probe would fail is taken; a
    configured pair that fails to open ends the attempt although a keyboard
    is attached. *)
Lemma X9_open_explicit_configuration_witness :
  HID._open (HID.mkConfig (Some 0x046d) (Some 0xc52b) (Some "/dev/hidraw7"))
            (HID.mkEnv true [kbd_by_usage] (λ _, HID.ProbeRaises) (λ _ _, false))
  = (inr (ByPath "/dev/hidraw7"), ["/dev/hidraw7"])
  ∧ fst (HID._open (HID.mkConfig (Some 0x046d) (Some 0xc52b) None)
                   (HID.mkEnv true [kbd_by_usage] (λ _, HID.Opens) (λ _ _, false)))
    = inl HID.OpenByIdsFailed.
Proof.
  split.
  - apply (proj1 (X9_open_explicit_configuration
                    (HID.mkConfig (Some 0x046d) (Some 0xc52b) (Some "/dev/hidraw7"))
                    (HID.mkEnv true [kbd_by_usage] (λ _, HID.ProbeRaises) (λ _ _, false))
                    eq_refl)); done.
  - apply (proj1 (proj2 (X9_open_explicit_configuration
                    (HID.mkConfig (Some 0x046d) (Some 0xc52b) None)
                    (HID.mkEnv true [kbd_by_usage] (λ _, HID.Opens) (λ _ _, false))
                    eq_refl)) 0x046d 0xc52b); done.
Defined.

(** Discovery over a keyboard, a mouse and another keyboard, all of which
    open. *)
Lemma X10_discovery_first_openable_witness :
  match HID._open (HID.mkConfig None None None)
                  (HID.mkEnv true [kbd_by_usage; not_a_kbd; kbd_by_name]
                             (λ _, HID.Opens) (λ _ _, true)) with
  | (inr h, tried) =>
      ∃ pre c post,
        HID.candidates [kbd_by_usage; not_a_kbd; kbd_by_name] = pre ++ c :: post
        ∧ h = ByPath (HID._s (HID.path c))
        ∧ HID.Opens = HID.Opens
        ∧ Forall (λ _, HID.Opens ≠ HID.Opens) pre
        ∧ tried = ((λ c', HID._s (HID.path c')) <$> pre) ++ [HID._s (HID.path c)]
  | (inl e, tried) =>
      e = HID.NoSuitableDevice
      ∧ Forall (λ _, HID.Opens ≠ HID.Opens)
               (HID.candidates [kbd_by_usage; not_a_kbd; kbd_by_name])
      ∧ tried = (λ c', HID._s (HID.path c'))
                  <$> HID.candidates [kbd_by_usage; not_a_kbd; kbd_by_name]
  end.
Proof.
  exact (X10_discovery_first_openable (HID.mkConfig None None None)
           (HID.mkEnv true [kbd_by_usage; not_a_kbd; kbd_by_name]
                      (λ _, HID.Opens) (λ _ _, true))
           eq_refl (conj eq_refl eq_refl)).
Defined.

(** ** More on the terminal run loop *)

Section stdin_extras.
Import Stdin.

(** A character appended to a pending buffer resolves to a key only if it
    is a final byte and the buffer held two characters. *)
Lemma complete_arrow_snoc buf ch :
  complete_arrow (buf ++ [ch]) = true →
  length buf = 2%nat ∧ buf !! 1%nat = Some "["%char ∧ is_final_byte ch = true.
Proof.
  unfold complete_arrow. rewrite !andb_true_iff, Nat.eqb_eq, length_app.
  simpl. intros [[Hlen H1] H2].
  destruct buf as [|x [|y [|z buf]]]; simpl in *; try lia.
  split; [done|]. split; [|done]. f_equal. symmetry. by apply Ascii.eqb_eq.
Qed.

(** The invariant of the pending buffer. *)
Lemma buffer_inv_loop inputs : ∀ s,
  buffer_inv s → buffer_inv (loop inputs s).
Proof.
  induction inputs as [|i inputs IH]; intros s Hinv; simpl; [done|].
  destruct (running (self s)); [|done].
  assert (Hb : buffer_inv (fst (body i s))).
  { destruct Hinv as [[Hs Hbuf]|(t0 & rest & Hs & Hbuf & Hlen)];
      destruct i as [now|ch t1 t2| | |]; cbn [body]; rewrite ?Hs.
    - by left.
    - destruct (Ascii.eqb ch CTRL_C); [by left|].
      destruct (Ascii.eqb ch ESC) eqn:He.
      + apply Ascii.eqb_eq in He as ->. right. exists t1, []. simpl. auto with lia.
      + unfold on_char. rewrite Hs. by left.
    - by left.
    - by left.
    - by left.
    - destruct (_ <? _)%Z; [by left|]. right. eauto.
    - destruct (Ascii.eqb ch CTRL_C); [right; eauto|].
      destruct (Ascii.eqb ch ESC) eqn:He.
      + apply Ascii.eqb_eq in He as ->. right. exists t1, []. simpl. auto with lia.
      + cbn [fst]. unfold on_char. rewrite Hs, Hbuf.
        destruct (complete_arrow _); [by left|].
        destruct (Nat.ltb_spec 5 (length ((ESC :: rest) ++ [ch]))) as [Hgt|Hle];
          [by left|].
        right. exists t0, (rest ++ [ch]). cbn [escape_sequence_start buffer].
        split; [done|]. split; [done|].
        rewrite length_app in Hle |- *. simpl in Hle |- *. lia.
    - right. eauto.
    - by left.
    - right. eauto. }
  destruct (body i s) as [s' [|]]; simpl in Hb; [by apply IH|done].
Qed.

End stdin_extras.

Section stdin_sequences.
Import Stdin.

Lemma ESCAPE_MAP_final x key :
  ESCAPE_MAP !! String ESC (String "[" (String x EmptyString)) = Some key →
  (x = "A"%char ∧ key = "up") ∨ (x = "B"%char ∧ key = "down")
  ∨ (x = "C"%char ∧ key = "right") ∨ (x = "D"%char ∧ key = "left").
Proof.
  unfold ESCAPE_MAP. rewrite !lookup_insert_Some, lookup_empty.
  intros H. decompose [and or] H; clear H; try discriminate;
    match goal with Heq : String _ _ = String _ _ |- _ => injection Heq as <- end;
    subst; auto 6.
Qed.

Lemma body_final l st eff x key t1 t2 :
  ESCAPE_MAP !! String ESC (String "[" (String x EmptyString)) = Some key →
  body (ReadChar x t1 t2) (mkRun l [ESC; "["%char] (Some st) eff)
  = (mkRun (press key t1 t2 l) [] None eff, Continue).
Proof.
  intros Hk. pose proof (ESCAPE_MAP_final x key Hk) as Hx.
  cbn [body].
  assert (Hne : Ascii.eqb x CTRL_C = false ∧ Ascii.eqb x ESC = false
                ∧ complete_arrow ([ESC; "["%char] ++ [x]) = true).
  { decompose [and or] Hx; subst; repeat split; reflexivity. }
  destruct Hne as (-> & -> & Hc). unfold on_char.
  cbn [escape_sequence_start buffer self effects]. rewrite Hc.
  change (string_of_list_ascii ([ESC; "["%char] ++ [x]))
    with (String ESC (String "[" (String x EmptyString))).
  rewrite Hk.
  assert (Ht : str_truthy key = true) by (decompose [and or] Hx; subst; reflexivity).
  by rewrite Ht.
Qed.

(** X11.  The pending buffer of the terminal loop is bounded and well
    formed: with no sequence pending it is empty, with one pending it is
    ESC followed by at most four characters.  Hence every buffer that
    passes the test for a complete arrow sequence is in [ESCAPE_MAP] and
    names a direction: the branch for an unrecognized arrow sequence is
    never taken. *)
Theorem X11_stdin_buffer_bounded_and_resolved inputs saved :
  let s := _run inputs (started saved) in
  (length (buffer s) ≤ 5)%nat
  ∧ (escape_sequence_start s = None → buffer s = [])
  ∧ (is_Some (escape_sequence_start s) → head (buffer s) = Some ESC)
  ∧ (∀ ch, is_Some (escape_sequence_start s) →
           complete_arrow (buffer s ++ [ch]) = true →
           ∃ key, ESCAPE_MAP !! string_of_list_ascii (buffer s ++ [ch]) = Some key
                  ∧ is_direction key).
Proof.
  intros s.
  assert (Hinv : buffer_inv s).
  { apply buffer_inv_loop. by left. }
  destruct Hinv as [[Hs Hbuf]|(t0 & rest & Hs & Hbuf & Hlen)]; rewrite Hs, Hbuf.
  - split; [simpl; lia|]. split; [done|].
    split; intros; by destruct (is_Some_None (A := Z)).
  - split; [simpl; lia|]. split; [done|]. split; [done|].
    intros ch _ Hc. destruct (complete_arrow_snoc _ _ Hc) as (Hl & H1 & Hf).
    destruct rest as [|y [|z rest]]; simpl in Hl; try lia.
    simpl in H1. injection H1 as ->.
    unfold is_final_byte in Hf. rewrite !orb_true_iff, !Ascii.eqb_eq in Hf.
    decompose [or] Hf; subst; eexists;
      (split; [vm_compute; reflexivity|unfold is_direction; auto]).
Qed.

(** X12.  Decoding does not depend on what came before: from any state of
    the running loop, whatever is pending, the three characters ESC '['
    and a final byte of [ESCAPE_MAP] enqueue exactly one event, a down-edge
    for the direction of that byte stamped with the second clock reading,
    mark the direction as pressed since the first reading, remember it as
    last direction and leave nothing pending. *)
Theorem X12_stdin_arrow_from_any_state
    (s : RunState) (x : ascii) (key : string) (ta ta' tb tb' t1 t2 : Z) :
  running (self s) = true →
  ESCAPE_MAP !! String ESC (String "[" (String x EmptyString)) = Some key →
  let s' := loop [ReadChar ESC ta ta'; ReadChar "[" tb tb'; ReadChar x t1 t2] s in
  event_queue (self s') = event_queue (self s) ++ [mkEvent key true t2]
  ∧ is_pressed (key_states (self s')) key = true
  ∧ key_press_time (self s') !! key = Some t1
  ∧ last_direction (self s') = Some key
  ∧ buffer s' = [] ∧ escape_sequence_start s' = None
  ∧ running (self s') = true.
Proof.
  intros Hr Hk s'. unfold s'. destruct s as [l buf st eff]. cbn [self] in Hr.
  rewrite (loop_continue _ _ (mkRun l buf st eff) _ Hr (body_ESC l buf st eff ta ta')).
  rewrite (loop_continue _ _ (mkRun l [ESC] (Some ta) eff) _ Hr
             (body_bracket l ta eff tb tb')).
  rewrite (loop_continue _ _ (mkRun l [ESC; "["%char] (Some ta) eff) _ Hr
             (body_final l ta eff x key t1 t2 Hk)).
  cbn [loop self buffer escape_sequence_start press event_queue key_states
       key_press_time last_direction running].
  unfold is_pressed. rewrite !lookup_insert_eq. done.
Qed.

Lemma on_char_not_final ch t1 t2 s :
  is_final_byte ch = false → self (on_char ch t1 t2 s) = self s.
Proof.
  intros Hf. unfold on_char. destruct (escape_sequence_start s); [|done].
  destruct (complete_arrow (buffer s ++ [ch])) eqn:Hc.
  - apply complete_arrow_snoc in Hc as (_ & _ & Hc). congruence.
  - by destruct (_ <? _)%nat.
Qed.

Lemma loop_no_final_byte inputs : ∀ s,
  (∀ ch t1 t2, ReadChar ch t1 t2 ∈ inputs → is_final_byte ch = false) →
  event_queue (self (loop inputs s)) = event_queue (self s)
  ∧ key_states (self (loop inputs s)) = key_states (self s)
  ∧ key_press_time (self (loop inputs s)) = key_press_time (self s)
  ∧ last_direction (self (loop inputs s)) = last_direction (self s).
Proof.
  induction inputs as [|i inputs IH]; intros s Hno; simpl; [done|].
  destruct (running (self s)); [|done].
  assert (Hb : self (fst (body i s)) = self s
               ∨ self (fst (body i s)) = set_running false (self s)).
  { destruct i as [now|ch t1 t2| | |]; cbn [body].
    - destruct (escape_sequence_start s); [|by left]. destruct (_ <? _)%Z; by left.
    - destruct (Ascii.eqb ch CTRL_C); [by right|].
      destruct (Ascii.eqb ch ESC); [by left|]. left. cbn [fst].
      apply on_char_not_final. apply (Hno ch t1 t2). left.
    - by left.
    - by left.
    - by right. }
  assert (Hrest : ∀ ch t1 t2, ReadChar ch t1 t2 ∈ inputs → is_final_byte ch = false).
  { intros ch t1 t2 Hin. apply (Hno ch t1 t2). by right. }
  destruct (body i s) as [s' [|]]; simpl in Hb.
  - destruct (IH s' Hrest) as (-> & -> & -> & ->). by destruct Hb as [-> | ->].
  - by destruct Hb as [-> | ->].
Qed.

(** X13.  Typing that contains none of the final bytes 'A', 'B', 'C', 'D'
    never produces a key event: the queue, the key states, the press times
    and the last direction stay exactly as they were before it. *)
Theorem X13_stdin_text_without_final_bytes_is_silent pre more saved :
  (∀ ch t1 t2, ReadChar ch t1 t2 ∈ more → is_final_byte ch = false) →
  let s := _run pre (started saved) in
  let s' := _run (pre ++ more) (started saved) in
  event_queue (self s') = event_queue (self s)
  ∧ key_states (self s') = key_states (self s)
  ∧ key_press_time (self s') = key_press_time (self s)
  ∧ last_direction (self s') = last_direction (self s).
Proof.
  intros Hno s s'. unfold s', _run. rewrite stdin_loop_app.
  by apply loop_no_final_byte.
Qed.

(** The loop never looks at the queue, it only appends to it: events the
    consumer has taken make no difference to what a pass does. *)
Lemma on_char_with_delivered d ch t1 t2 s :
  on_char ch t1 t2 (with_delivered d s) = with_delivered d (on_char ch t1 t2 s).
Proof.
  destruct s as [l buf st eff]. unfold on_char, with_delivered.
  cbn [self buffer escape_sequence_start effects].
  destruct st as [t0|]; [|done].
  destruct (complete_arrow _).
  - cbn [self buffer escape_sequence_start effects].
    destruct (ESCAPE_MAP !! _) as [key|]; [|done].
    destruct (str_truthy key); [|done].
    unfold press, with_queue. cbn. by rewrite app_assoc.
  - by destruct (_ <? _)%nat.
Qed.

Lemma body_with_delivered d i s :
  body i (with_delivered d s) = (with_delivered d (fst (body i s)), snd (body i s)).
Proof.
  destruct i as [now|ch t1 t2| | |]; cbn [body].
  - destruct s as [l buf [t0|] eff]; cbn; [|done]. by destruct (_ <? _)%Z.
  - destruct s as [l buf st eff].
    change (escape_sequence_start (with_delivered d (mkRun l buf st eff))) with st.
    change (buffer (with_delivered d (mkRun l buf st eff))) with buf.
    change (effects (with_delivered d (mkRun l buf st eff))) with eff.
    change (old_settings (self (with_delivered d (mkRun l buf st eff))))
      with (old_settings l).
    cbn [self buffer escape_sequence_start effects].
    destruct (Ascii.eqb ch CTRL_C); [done|].
    destruct (Ascii.eqb ch ESC); [done|].
    cbn [fst snd]. by rewrite on_char_with_delivered.
  - done.
  - done.
  - done.
Qed.

Lemma loop_with_delivered d inputs : ∀ s,
  loop inputs (with_delivered d s) = with_delivered d (loop inputs s).
Proof.
  induction inputs as [|i inputs IH]; intros s; [done|].
  cbn [loop]. change (running (self (with_delivered d s))) with (running (self s)).
  destruct (running (self s)); [|done].
  rewrite body_with_delivered.
  destruct (body i s) as [s' [|]]; cbn [fst snd]; [apply IH|done].
Qed.

Lemma with_delivered_nil s : with_delivered [] s = s.
Proof. by destruct s as [[] ? ? ?]. Qed.

(** The worker of a session is the worker left alone, up to the events the
    consumer has taken. *)
Lemma session_worker steps : ∀ s d,
  loop (worker_passes steps) (with_delivered d s)
  = with_delivered (d ++ omap id (snd (session steps s))) (fst (session steps s)).
Proof.
  induction steps as [|[i|] steps IH]; intros s d.
  - cbn. by rewrite app_nil_r.
  - cbn [worker_passes session].
    rewrite (stdin_loop_app [i] (worker_passes steps)), loop_with_delivered.
    apply IH.
  - cbn [worker_passes session fst snd]. unfold get_event.
    destruct s as [l buf st eff]. cbn [self buffer escape_sequence_start effects].
    destruct (event_queue l) as [|e q] eqn:Hq; cbn [fst snd omap].
    + change (list_omap _ _ id (None :: ?r)) with (omap id r).
      by rewrite <- (IH (mkRun l buf st eff) d).
    + change (list_omap _ _ id (Some e :: ?r)) with (e :: omap id r).
      rewrite cons_middle, app_assoc, <- IH.
      unfold with_delivered, with_queue. cbn. by rewrite Hq, <- app_assoc.
Qed.

(** What one pass, and then the whole loop, does to the queue and to the
    last-direction slot: it appends events, and the slot follows the newest
    of them. *)
Lemma body_appends i s :
  ∃ enq, event_queue (self (fst (body i s))) = event_queue (self s) ++ enq
    ∧ last_direction (self (fst (body i s)))
      = from_option (λ e, Some (ev_key e)) (last_direction (self s)) (last enq).
Proof.
  destruct (body_self i s) as [-> | [-> | (ch & t1 & t2 & key & _ & _ & ->)]].
  - exists []. by rewrite app_nil_r.
  - exists []. cbn. by rewrite app_nil_r.
  - exists [mkEvent key true t2]. done.
Qed.

Lemma loop_appends inputs : ∀ s,
  ∃ enq, event_queue (self (loop inputs s)) = event_queue (self s) ++ enq
    ∧ last_direction (self (loop inputs s))
      = from_option (λ e, Some (ev_key e)) (last_direction (self s)) (last enq).
Proof.
  induction inputs as [|i inputs IH]; intros s.
  { exists []. by rewrite app_nil_r. }
  cbn [loop]. destruct (running (self s)); [|exists []; by rewrite app_nil_r].
  destruct (body_appends i s) as (e1 & Hq1 & Hd1).
  destruct (body i s) as [s' [|]]; cbn [fst] in Hq1, Hd1; [|by exists e1].
  destruct (IH s') as (e2 & Hq2 & Hd2).
  exists (e1 ++ e2). rewrite Hq2, Hq1, Hd2, Hd1, last_app, <- app_assoc.
  split; [done|]. by destruct (last e2).
Qed.

(** X14.  A session of worker passes and calls of [get_event], in any
    order and from any state [s0] of the worker (one just started, or one
    whose last-direction slot has just been read).  [history] is the queue
    as it would be had the consumer taken nothing, [enqueued] what the
    passes have added to it.  The events [get_event] has returned, followed
    by those still queued, are [history]: events leave in the order in which
    they entered.  The last-direction slot holds the direction of the newest
    enqueued event, whether that event is still queued or has been taken,
    and is as it was at [s0] when no event was enqueued.
    [get_last_direction] returns the slot and empties it, so that asking
    again returns nothing, and it leaves queue and key states alone. *)
Theorem X14_stdin_last_direction_is_newest_event steps s0 :
  let r := session steps s0 in
  let l := self (fst r) in
  let got := omap id (snd r) in
  let history := event_queue (self (loop (worker_passes steps) s0)) in
  let enqueued := drop (length (event_queue (self s0))) history in
  history = event_queue (self s0) ++ enqueued
  ∧ got ++ event_queue l = history
  ∧ last_direction l
    = match last enqueued with
      | Some e => Some (ev_key e)
      | None => last_direction (self s0)
      end
  ∧ fst (get_last_direction l) = last_direction l
  ∧ fst (get_last_direction (snd (get_last_direction l))) = None
  ∧ event_queue (snd (get_last_direction l)) = event_queue l
  ∧ key_states (snd (get_last_direction l)) = key_states l.
Proof.
  intros r l got history enqueued.
  pose proof (session_worker steps s0 []) as Hw.
  rewrite with_delivered_nil, app_nil_l in Hw. fold r got in Hw.
  destruct (loop_appends (worker_passes steps) s0) as (enq & Hq & Hd).
  assert (He : enqueued = enq).
  { unfold enqueued, history. by rewrite Hq, drop_app_length. }
  rewrite He. split; [exact Hq|]. split; [|split; [|done]].
  - unfold history. by rewrite Hw.
  - rewrite Hw in Hd. exact Hd.
Qed.

End stdin_sequences.

Section stdin_exit.
Import Stdin.

Lemma old_settings_loop inputs : ∀ s,
  old_settings (self (loop inputs s)) = old_settings (self s).
Proof.
  induction inputs as [|i inputs IH]; intros s; simpl; [done|].
  destruct (running (self s)); [|done].
  assert (Hb : old_settings (self (fst (body i s))) = old_settings (self s)).
  { by destruct (body_self i s) as [-> | [-> | (ch & t1 & t2 & key & _ & Hk & ->)]]. }
  destruct (body i s) as [s' [|]]; simpl in Hb; [by rewrite IH|done].
Qed.

(** X15.  The worker always hands the terminal back.  With terminal
    settings saved at start, the last thing the worker does once its loop
    has ended is to restore them.  On Ctrl+C the loop ends at once, with no
    event enqueued and nothing read afterwards: it clears [running],
    restores the terminal, only then raises SIGINT, and restores the
    terminal once more on the way out. *)
Theorem X15_stdin_exit_restores_terminal (x : Z) (xs : list Z) :
  (∀ inputs,
     last (effects (teardown (_run inputs (started (Some (x :: xs))))))
     = Some (RestoreTerminal (x :: xs)))
  ∧ (∀ pre t1 t2 more,
       let s0 := _run pre (started (Some (x :: xs))) in
       let s := _run (pre ++ ReadChar CTRL_C t1 t2 :: more) (started (Some (x :: xs))) in
       running (self s0) = true →
       running (self s) = false
       ∧ event_queue (self s) = event_queue (self s0)
       ∧ key_states (self s) = key_states (self s0)
       ∧ effects (teardown s)
         = effects s0 ++ [SignalStop; RestoreTerminal (x :: xs); RaiseSIGINT;
                          RestoreTerminal (x :: xs)]).
Proof.
  assert (Hold : ∀ inputs,
            old_settings (self (_run inputs (started (Some (x :: xs))))) = Some (x :: xs)).
  { intros inputs. unfold _run. by rewrite old_settings_loop. }
  split.
  - intros inputs. unfold teardown. rewrite Hold. cbn [settings_truthy effects default].
    by rewrite last_snoc.
  - intros pre t1 t2 more s0 s Hr.
    assert (Hs : s = mkRun (set_running false (self s0)) (buffer s0)
                       (escape_sequence_start s0)
                       (effects s0 ++ [SignalStop] ++ [RestoreTerminal (x :: xs)]
                          ++ [RaiseSIGINT])).
    { unfold s, _run. rewrite stdin_loop_app. fold (_run pre (started (Some (x :: xs)))).
      fold s0. cbn [loop]. rewrite Hr. cbn [body]. simpl Ascii.eqb. cbn iota.
      unfold s0. by rewrite Hold. }
    rewrite Hs. unfold teardown. cbn [self set_running old_settings running
      event_queue key_states effects buffer escape_sequence_start].
    unfold s0. rewrite Hold. cbn [settings_truthy default effects].
    repeat split. by rewrite <- !app_assoc.
Qed.

End stdin_exit.

(** An arrow key, then Ctrl+C, then a key that is never read. *)
Lemma X15_stdin_exit_restores_terminal_witness :
  let pre := [Stdin.ReadChar Stdin.ESC 0 0; Stdin.ReadChar "[" 0 0; Stdin.ReadChar "A" 1 2] in
  let s := Stdin._run (pre ++ Stdin.ReadChar Stdin.CTRL_C 3 3
                            :: [Stdin.ReadChar Stdin.ESC 4 4; Stdin.ReadChar "[" 4 4;
                                Stdin.ReadChar "B" 5 6])
                      (Stdin.started (Some [7; 8])) in
  Stdin.event_queue (Stdin.self s) = [mkEvent "up" true 2]
  ∧ Stdin.effects (Stdin.teardown s)
    = [SignalStop; RestoreTerminal [7; 8]; RaiseSIGINT; RestoreTerminal [7; 8]].
Proof.
  cbn zeta.
  destruct (proj2 (X15_stdin_exit_restores_terminal 7 [8])
              [Stdin.ReadChar Stdin.ESC 0 0; Stdin.ReadChar "[" 0 0; Stdin.ReadChar "A" 1 2]
              3 3
              [Stdin.ReadChar Stdin.ESC 4 4; Stdin.ReadChar "[" 4 4; Stdin.ReadChar "B" 5 6])
    as (_ & Hq & _ & He).
  - vm_compute. reflexivity.
  - split; [rewrite Hq|rewrite He]; vm_compute; reflexivity.
Defined.

(** Arrow-left typed while an unfinished sequence is pending. *)
Lemma X12_stdin_arrow_from_any_state_witness :
  let s := Stdin._run [Stdin.ReadChar Stdin.ESC 0 0; Stdin.ReadChar "O" 0 0]
                      (Stdin.started None) in
  Stdin.event_queue
    (Stdin.self (Stdin.loop [Stdin.ReadChar Stdin.ESC 5 5; Stdin.ReadChar "[" 5 5;
                             Stdin.ReadChar "D" 6 7] s))
  = [mkEvent "left" true 7].
Proof.
  cbn zeta.
  destruct (X12_stdin_arrow_from_any_state
              (Stdin._run [Stdin.ReadChar Stdin.ESC 0 0; Stdin.ReadChar "O" 0 0]
                          (Stdin.started None))
              "D"%char "left" 5 5 5 5 6 7) as (Hq & _).
  - vm_compute. reflexivity.
  - vm_compute. reflexivity.
  - rewrite Hq. vm_compute. reflexivity.
Defined.

(** The letters of "quit", an unfinished sequence and a timeout, typed
    after an arrow key. *)
Lemma X13_stdin_text_without_final_bytes_is_silent_witness :
  Stdin.event_queue
    (Stdin.self (Stdin._run
       ([Stdin.ReadChar Stdin.ESC 0 0; Stdin.ReadChar "[" 0 0; Stdin.ReadChar "A" 1 2]
          ++ [Stdin.ReadChar "q" 3 3; Stdin.ReadChar Stdin.ESC 4 4; Stdin.ReadChar "[" 4 4;
              Stdin.NotReady 200000; Stdin.ReadChar "u" 5 5])
       (Stdin.started None)))
  = [mkEvent "up" true 2].
Proof.
  assert (Hno : ∀ ch t1 t2,
            Stdin.ReadChar ch t1 t2
            ∈ [Stdin.ReadChar "q" 3 3; Stdin.ReadChar Stdin.ESC 4 4; Stdin.ReadChar "[" 4 4;
               Stdin.NotReady 200000; Stdin.ReadChar "u" 5 5] →
            Stdin.is_final_byte ch = false).
  { intros ch t1 t2 Hin. rewrite !elem_of_cons, elem_of_nil in Hin.
    decompose [or] Hin; try discriminate; try contradiction;
      match goal with H : Stdin.ReadChar _ _ _ = _ |- _ => injection H as -> _ _ end;
      reflexivity. }
  rewrite (proj1 (X13_stdin_text_without_final_bytes_is_silent
            [Stdin.ReadChar Stdin.ESC 0 0; Stdin.ReadChar "[" 0 0; Stdin.ReadChar "A" 1 2]
            _ None Hno)).
  vm_compute. reflexivity.
Defined.

(** After ESC and '[' the buffer is pending and a final byte resolves. *)
Lemma X11_stdin_buffer_bounded_and_resolved_witness :
  let s := Stdin._run [Stdin.ReadChar "x" 0 0; Stdin.ReadChar Stdin.ESC 1 1;
                       Stdin.ReadChar "[" 2 2] (Stdin.started None) in
  head (Stdin.buffer s) = Some Stdin.ESC
  ∧ ∃ key, Stdin.ESCAPE_MAP !! string_of_list_ascii (Stdin.buffer s ++ ["C"%char]) = Some key
           ∧ is_direction key.
Proof.
  cbn zeta.
  destruct (X11_stdin_buffer_bounded_and_resolved
              [Stdin.ReadChar "x" 0 0; Stdin.ReadChar Stdin.ESC 1 1; Stdin.ReadChar "[" 2 2]
              None) as (_ & _ & Hh & Hk).
  split.
  - apply Hh. vm_compute. eauto.
  - apply Hk; [vm_compute; eauto|vm_compute; reflexivity].
Defined.

(** An arrow key is typed and decoded, the consumer takes the event and
    asks once more in vain: the queue is empty, and the slot still holds
    "up" until [get_last_direction] reads it. *)
Lemma X14_stdin_last_direction_is_newest_event_witness :
  let steps :=
    [Stdin.WorkerPass (Stdin.ReadChar Stdin.ESC 0 0);
     Stdin.WorkerPass (Stdin.ReadChar "[" 1 1);
     Stdin.WorkerPass (Stdin.ReadChar "A" 2 3);
     Stdin.ConsumerGetEvent; Stdin.ConsumerGetEvent;
     Stdin.WorkerPass (Stdin.NotReady 10000)] in
  let r := Stdin.session steps (Stdin.mkRun (Stdin.started (Some [0])) [] None []) in
  snd r = [Some (mkEvent "up" true 3); None]
  ∧ Stdin.event_queue (Stdin.self (fst r)) = []
  ∧ Stdin.last_direction (Stdin.self (fst r)) = Some "up"
  ∧ Stdin.last_direction (snd (Stdin.get_last_direction (Stdin.self (fst r)))) = None.
Proof.
  intros steps r.
  destruct (X14_stdin_last_direction_is_newest_event steps
              (Stdin.mkRun (Stdin.started (Some [0])) [] None []))
    as (_ & _ & Hd & _).
  split; [vm_compute; reflexivity|]. split; [vm_compute; reflexivity|].
  split; [|reflexivity].
  fold r in Hd. rewrite Hd. vm_compute. reflexivity.
Defined.

(** ** More on the relay sender and the bridge *)

Section proxy_extras.
Import Proxy.

(** X16.  A call of [send] is one delivery attempt at most: the history of
    socket operations only grows, the call adds at most one [sendall], and
    what that [sendall] carries is the event of this call; nothing is
    retried and no earlier event is sent again. *)
Theorem X16_send_at_most_once (key : string) (is_down : bool) (ts : Z) (w : World) :
  ∃ new,
    ops (snd (send key is_down ts w)) = ops w ++ new
    ∧ (length (filter (λ o, is_sendall o = true) new) ≤ 1)%nat
    ∧ (∀ c m ok, OpSendAll c m ok ∈ new → m = mkMsg key is_down ts)
    ∧ (sock w ≠ None → ∀ c ok, OpConnect c ok ∉ new).
Proof.
  destruct w as [s scr n o].
  destruct s as [c0|]; destruct scr as [|[|] [|[|] [|[|] r]]];
    eexists; (split; [cbv -[app]; rewrite <- ?app_assoc; reflexivity|]);
    (split; [vm_compute; lia|]);
    (split; [intros c m ok Hin|intros Hs c ok Hin]);
    simpl in Hin; rewrite ?elem_of_cons, ?elem_of_nil in Hin;
    try (by decompose [or] Hin; simplify_eq);
    try done.
Qed.

Lemma on_byte_plain buf b t_down t_up w :
  Stdin.is_final_byte b = false → b ≠ QUIT →
  on_byte buf b t_down t_up w = (inr (buf ++ [b], Continue), w).
Proof.
  intros Hf Hq. unfold on_byte, mbind, M_bind, bind.
  rewrite match_sequences_none by done.
  by rewrite (proj2 (Ascii.eqb_neq b QUIT) Hq).
Qed.

(** X17.  Bytes that are neither a final byte 'A'..'D' nor 'q' never touch
    the socket: the bridge performs no connect and no send for them and
    only appends them to its buffer, which it never trims. *)
Theorem X17_bridge_plain_bytes_send_nothing inputs : ∀ buf w,
  (∀ b t_down t_up, (b, t_down, t_up) ∈ inputs →
                    Stdin.is_final_byte b = false ∧ b ≠ QUIT) →
  read_loop inputs buf w = (inr (buf ++ ((λ i, fst (fst i)) <$> inputs)), w).
Proof.
  induction inputs as [|[[b td] tu] inputs IH]; intros buf w Hall.
  - simpl. by rewrite app_nil_r.
  - destruct (Hall b td tu ltac:(left)) as [Hf Hq].
    cbn [read_loop]. unfold mbind, M_bind, bind.
    rewrite on_byte_plain by done.
    rewrite IH.
    + simpl. by rewrite <- app_assoc.
    + intros b' td' tu' Hin. apply (Hall b' td' tu'). by right.
Qed.

End proxy_extras.

Section bridge_stream.
Import Proxy.

Lemma endswith_app buf seq : endswith (buf ++ seq) seq = true.
Proof.
  unfold endswith. rewrite length_app. apply andb_true_iff. split.
  - apply Nat.leb_le. lia.
  - replace (length buf + length seq - length seq)%nat with (length buf) by lia.
    rewrite drop_app_length. by apply list_ascii_eqb_eq.
Qed.

Lemma on_byte_arrow buf b seq name t_down t_up w :
  (seq, name) ∈ ESC_SEQ_MAP →
  endswith (buf ++ [b]) seq = true →
  on_byte buf b t_down t_up w
  = (inr ([], Continue), snd (send name false t_up (snd (send name true t_down w)))).
Proof.
  intros Hin He.
  destruct (match_sequences_arrow buf b seq name t_down t_up w Hin He) as [Hm Hb].
  unfold on_byte, mbind, M_bind, bind. rewrite Hm.
  assert (Hq : Ascii.eqb b QUIT = false).
  { unfold Stdin.is_final_byte in Hb.
    rewrite !orb_true_iff, !Ascii.eqb_eq in Hb.
    decompose [or] Hb; subst; reflexivity. }
  by rewrite Hq.
Qed.

(** The three bytes of one arrow key, on any buffer. *)
Lemma read_loop_arrow seq name t_down t_up rest buf w :
  (seq, name) ∈ ESC_SEQ_MAP →
  read_loop (((λ b, (b, t_down, t_up)) <$> seq) ++ rest) buf w
  = read_loop rest [] (snd (send name false t_up (snd (send name true t_down w)))).
Proof.
  intros Hin.
  assert (Hseq : ∃ x, seq = [Stdin.ESC; "["%char; x]).
  { unfold ESC_SEQ_MAP in Hin. rewrite !elem_of_cons, elem_of_nil in Hin.
    decompose [or] Hin; simplify_eq; eauto; contradiction. }
  destruct Hseq as [x ->]. cbn [fmap list_fmap app read_loop].
  unfold mbind, M_bind, bind.
  rewrite on_byte_plain by done.
  rewrite on_byte_plain by done.
  rewrite (on_byte_arrow _ x [Stdin.ESC; "["%char; x] name); [done|done|].
  rewrite <- !app_assoc.
  exact (endswith_app buf [Stdin.ESC; "["%char; x]).
Qed.

Lemma send_connected key is_down ts c r n o :
  send key is_down ts (mkWorld (Some c) (true :: r) n o)
  = (inr tt, mkWorld (Some c) r n (o ++ [OpSendAll c (mkMsg key is_down ts) true])).
Proof. reflexivity. Qed.

Lemma send_first key is_down ts r n o :
  send key is_down ts (mkWorld None (true :: true :: r) n o)
  = (inr tt, mkWorld (Some n) r (S n)
                     (o ++ [OpConnect n true; OpSendAll n (mkMsg key is_down ts) true])).
Proof. cbv -[app]. by rewrite <- app_assoc. Qed.

(** Arrow keys on an open connection that delivers. *)
Lemma read_loop_arrows_connected keys : ∀ buf c r n o,
  Forall (λ k, fst k ∈ ESC_SEQ_MAP) keys →
  read_loop (typed_arrows keys) buf
            (mkWorld (Some c) (replicate (2 * length keys) true ++ r) n o)
  = (inr (match keys with [] => buf | _ => [] end),
     mkWorld (Some c) r n (o ++ arrow_deliveries c keys)).
Proof.
  induction keys as [|[[seq name] [td tu]] keys IH]; intros buf c r n o Hall.
  - simpl. by rewrite app_nil_r.
  - apply Forall_cons in Hall as [Hk Hall]. cbn [fst] in Hk.
    unfold typed_arrows, arrow_deliveries. cbn [mbind list_bind].
    fold (typed_arrows keys). fold (arrow_deliveries c keys).
    rewrite (read_loop_arrow seq name td tu) by done.
    replace (2 * length (((seq, name), (td, tu)) :: keys))%nat
      with (S (S (2 * length keys))) by (simpl; lia).
    cbn [replicate app]. rewrite send_connected. cbn [snd].
    rewrite send_connected. cbn [snd].
    rewrite IH by done. rewrite <- !app_assoc. by destruct keys.
Qed.

(** X18.  End to end over a socket that accepts everything: for arrow keys
    typed one after the other, the bridge connects once, before the first
    key, and then delivers for every key, in typing order, its down event
    followed by its up event, each stamped with its own clock reading;
    nothing else is sent and the buffer ends empty. *)
Theorem X18_bridge_arrow_stream key keys r :
  Forall (λ k, fst k ∈ ESC_SEQ_MAP) (key :: keys) →
  read_loop (typed_arrows (key :: keys)) []
            (init (replicate (1 + 2 * length (key :: keys)) true ++ r))
  = (inr [],
     mkWorld (Some 0%nat) r 1
             (OpConnect 0 true :: arrow_deliveries 0 (key :: keys))).
Proof.
  intros Hall. apply Forall_cons in Hall as [Hk Hall].
  destruct key as [[seq name] [td tu]]. cbn [fst] in Hk.
  unfold typed_arrows, arrow_deliveries. cbn [mbind list_bind].
  fold (typed_arrows keys). fold (arrow_deliveries 0 keys).
  rewrite (read_loop_arrow seq name td tu) by done.
  replace (1 + 2 * length (((seq, name), (td, tu)) :: keys))%nat
    with (S (S (S (2 * length keys)))) by (simpl; lia).
  unfold init. cbn [replicate app]. rewrite send_first. cbn [snd].
  rewrite send_connected. cbn [snd].
  rewrite read_loop_arrows_connected by done.
  cbn [app]. rewrite <- ?app_assoc. by destruct keys.
Qed.

End bridge_stream.

(** Left, then up, on a fresh bridge. *)
Lemma X18_bridge_arrow_stream_witness :
  Proxy.read_loop
    (Proxy.typed_arrows
       [(([Stdin.ESC; "["; "D"]%char, "left"), (1, 2));
        (([Stdin.ESC; "["; "A"]%char, "up"), (3, 4))])
    [] (Proxy.init (replicate (1 + 2 * 2) true ++ [false]))
  = (inr [],
     Proxy.mkWorld (Some 0%nat) [false] 1
       [Proxy.OpConnect 0 true;
        Proxy.OpSendAll 0 (Proxy.mkMsg "left" true 1) true;
        Proxy.OpSendAll 0 (Proxy.mkMsg "left" false 2) true;
        Proxy.OpSendAll 0 (Proxy.mkMsg "up" true 3) true;
        Proxy.OpSendAll 0 (Proxy.mkMsg "up" false 4) true]).
Proof.
  apply (X18_bridge_arrow_stream
           (([Stdin.ESC; "["; "D"]%char, "left"), (1, 2))
           [(([Stdin.ESC; "["; "A"]%char, "up"), (3, 4))] [false]).
  repeat constructor.
Defined.

(** The word "help" and an unfinished escape sequence reach no socket. *)
Lemma X17_bridge_plain_bytes_send_nothing_witness :
  Proxy.read_loop
    [("h"%char, 0, 0); ("e"%char, 0, 0); ("l"%char, 0, 0); ("p"%char, 0, 0);
     (Stdin.ESC, 0, 0); ("["%char, 0, 0)] [] (Proxy.init [true; true])
  = (inr ["h"; "e"; "l"; "p"; Stdin.ESC; "["]%char, Proxy.init [true; true]).
Proof.
  apply (X17_bridge_plain_bytes_send_nothing
           [("h"%char, 0, 0); ("e"%char, 0, 0); ("l"%char, 0, 0); ("p"%char, 0, 0);
            (Stdin.ESC, 0, 0); ("["%char, 0, 0)] [] (Proxy.init [true; true])).
  intros b td tu Hin. rewrite !elem_of_cons, elem_of_nil in Hin.
  decompose [or] Hin; try contradiction;
    match goal with H : (_, _, _) = _ |- _ => injection H as -> _ _ end;
    (split; [reflexivity|discriminate]).
Defined.

(** A send that fails on an open connection: one attempt, no reconnect. *)
Lemma X16_send_at_most_once_witness :
  ∃ new,
    Proxy.ops (snd (Proxy.send "up" true 1 (Proxy.mkWorld (Some 0%nat) [false; true] 1 [])))
    = [] ++ new
    ∧ (length (filter (λ o, Proxy.is_sendall o = true) new) ≤ 1)%nat
    ∧ ∀ c ok, Proxy.OpConnect c ok ∉ new.
Proof.
  destruct (X16_send_at_most_once "up" true 1
              (Proxy.mkWorld (Some 0%nat) [false; true] 1 []))
    as (new & H1 & H2 & _ & H4).
  exists new. split; [exact H1|]. split; [exact H2|].
  apply H4. discriminate.
Defined.
